(** * CMRX: lock primitives, process table, thread bootstrap and RPC engine

    A shallow embedding of the concurrency-and-isolation core of the CMRX
    kernel (Cortex-M port):

    - [src/lib/mutex.c]        binary lock and recursive depth-limited lock,
    - [src/os/arch/arm/sched.c] thread stack bootstrap and process creation,
    - [src/os/arch/arm/rpc.c]   cross-process call and return.

    Integers are [Z] with the C wrap-around written out; structures are
    records; the static tables are lists updated by index; the parts of the
    kernel that live in headers outside these three files are interfaces
    (type classes) or are flagged as modelled from the specification. *)

From Stdlib Require Import ZArith Lia Bool List.
From stdpp Require Import base numbers list functions.
Import ListNotations.
Local Open Scope Z_scope.

(** ** Machine integers *)

Definition uint8 (x : Z) : Z := x mod 2 ^ 8.
Definition uint32 (x : Z) : Z := x mod 2 ^ 32.

(** Two's complement reading of a 32-bit register, as the signed condition
    codes (GT, LE, ...) see it. *)
Definition sint32 (x : Z) : Z :=
  let u := uint32 x in if u <? 2 ^ 31 then u else u - 2 ^ 32.

(** ** Result codes *)

(** Modelled from the spec: the result codes of [<cmrx/defines.h>], a header
    of the repository that is not among the sources.  The specification
    only fixes success as 0 and the other codes as errors told apart from
    success and from each other; the numbering below is one such choice and
    the theorems use the codes by name. *)
Definition E_OK : Z := 0.
Definition E_OUT_OF_RANGE : Z := 1.
Definition E_INVALID_ADDRESS : Z := 4.
Definition E_BUSY : Z := 7.
Definition E_DEADLK : Z := 8.
Definition E_INVALID : Z := 10.
Definition E_IN_TOO_DEEP : Z := 11.

(** ** Lock objects ([src/lib/mutex.c]) *)

(** [futex_t]: three byte-sized fields; [mutex_t] is the same structure. *)
Record futex_t := Futex { owner : Z; flags : Z; state : Z }.
Definition mutex_t := futex_t.

(** Modelled from the spec: the "initialized" flag bit of [<cmrx/ipc/mutex.h>]. *)
Definition MUTEX_INITIALIZED : Z := 1.

Definition set_state (v : Z) (f : futex_t) : futex_t :=
  {| owner := owner f; flags := flags f; state := v |}.
Definition set_owner (v : Z) (f : futex_t) : futex_t :=
  {| owner := v; flags := flags f; state := state f |}.
Definition set_flags (v : Z) (f : futex_t) : futex_t :=
  {| owner := owner f; flags := v; state := state f |}.

(** An unlocked lock: state 0 and nobody's owner byte. *)
Definition unlocked (m : futex_t) : Prop := state m = 0 ∧ owner m = 0xFF.

(** A byte-sized lock object, as the C structure holds it. *)
Definition futex_wf (f : futex_t) : Prop :=
  0 <= owner f <= 255 /\ 0 <= flags f <= 255 /\ 0 <= state f <= 255.

(** *** The recursive lock's claim and release primitives

    The two inline-assembly routines, instruction by instruction.  The
    outcome of the store-exclusive is an input: [strex_ok = true] when the
    reservation taken by LDREXB is still in place at STREXB, [false] when it
    was lost (spuriously or to another access). *)

Definition __futex_fast_lock (strex_ok : bool) (futex : futex_t)
    (thread_id max_depth : Z) : Z * futex_t :=
  (* MOV success, #1 ; LDREXB state ; LDRB owner *)
  let mutexState := state futex in
  let mutexOwner := owner futex in
  (* CMP owner, #0xFF ; BEQ not_owned ; CMP owner, threadId ; BNE non_lockable *)
  if (mutexOwner =? 0xFF) || (mutexOwner =? thread_id) then
    (* CMP state, maxDepth ; BGT non_lockable  (signed greater-than) *)
    if sint32 max_depth <? sint32 mutexState then (1, futex)
    else
      (* ADD state, state, #1 ; STREXB success, state, [stateAddr] *)
      let mutexState := mutexState + 1 in
      if strex_ok then (0, set_state (uint8 mutexState) futex)
      else (1, futex)
  else (1, futex).

Definition __futex_fast_unlock (strex_ok : bool) (futex : futex_t)
    (thread_id : Z) : Z * futex_t :=
  let mutexState := state futex in
  let mutexOwner := owner futex in
  (* CBZ state, not_unlockable *)
  if mutexState =? 0 then (1, futex)
  (* CMP owner, threadId ; BNE not_unlockable *)
  else if negb (mutexOwner =? thread_id) then (1, futex)
  else
    (* SUB state, state, #1 ; STREXB success, state, [stateAddr] *)
    let mutexState := mutexState - 1 in
    if strex_ok then (0, set_state (uint8 mutexState) futex)
    else (1, futex).

(** *** Binary lock

    [get_tid] is the calling thread's identity as the system call returns
    it; each routine narrows it to [uint8_t]. *)

Definition mutex_init (mutex : mutex_t) : Z * mutex_t :=
  (0, set_state 0 (set_flags (Z.lor (flags mutex) MUTEX_INITIALIZED)
                     (set_owner 0xFF mutex))).

Definition mutex_destroy (mutex : mutex_t) : Z * mutex_t :=
  (0, set_state 0 (set_flags 0 (set_owner 0xFF mutex))).

Definition mutex_trylock (get_tid : Z) (strex_ok : bool) (mutex : mutex_t)
    : Z * mutex_t :=
  let tmp_state := state mutex in                     (* __LDREXB *)
  let thread_id := uint8 get_tid in
  if negb (owner mutex =? thread_id) then
    (E_BUSY, mutex)                                   (* __CLREX *)
  else if tmp_state =? 0 then
    if strex_ok then                                  (* __STREXB(state, 1) *)
      (0, set_owner thread_id (set_state 1 mutex))
    else (E_DEADLK, mutex)
  else (E_DEADLK, mutex).                             (* __CLREX *)

(** The release loop [do { LDREXB; success = STREXB(state, 0) } while
    (success != 0)], run against the list of outcomes of its successive
    store-exclusives.  [None]: every recorded attempt failed and the loop is
    still spinning. *)
Fixpoint mutex_unlock_retry (strex : list bool) (mutex : mutex_t)
    : option mutex_t :=
  match strex with
  | [] => None
  | ok :: rest =>
      if ok then Some (set_state 0 mutex) else mutex_unlock_retry rest mutex
  end.

Definition mutex_unlock (get_tid : Z) (strex : list bool) (mutex : mutex_t)
    : option (Z * mutex_t) :=
  let tmp_state := state mutex in                     (* __LDREXB *)
  let thread_id := uint8 get_tid in
  if negb (owner mutex =? thread_id) then
    Some (E_BUSY, mutex)                              (* __CLREX *)
  else if tmp_state =? 0 then
    Some (0, mutex)                                   (* __CLREX *)
  else
    match mutex_unlock_retry strex mutex with
    | Some mutex => Some (0, set_owner 0xFF mutex)
    | None => None
    end.

(** *** Recursive lock *)

Definition futex_init (futex : futex_t) : Z * futex_t :=
  (0, set_flags 0 (set_state 0 (set_owner 0xFF futex))).

Definition futex_trylock (get_tid : Z) (strex_ok : bool) (futex : futex_t)
    : Z * futex_t :=
  let thread_id := uint8 get_tid in
  __futex_fast_lock strex_ok futex thread_id 0.

Definition futex_unlock (get_tid : Z) (strex_ok : bool) (futex : futex_t)
    : Z * futex_t :=
  let thread_id := uint8 get_tid in
  let '(success, futex) := __futex_fast_unlock strex_ok futex thread_id in
  if (success =? 0) && (state futex =? 0) then (success, set_owner 0xFF futex)
  else (success, futex).

(** The loop of [futex_lock], [do { success = __futex_fast_lock(futex,
    thread_id, 0); if (success != 0) sched_yield(); } while (success != 0)],
    run by a thread nobody interferes with, against the outcomes of the
    store-exclusives of its successive turns.  [None]: after the recorded
    turns the loop is still going round. *)
Fixpoint futex_lock_retry (strex : list bool) (futex : futex_t)
    (thread_id : Z) : option futex_t :=
  match strex with
  | [] => None
  | ok :: rest =>
      let '(success, futex) := __futex_fast_lock ok futex thread_id 0 in
      if negb (success =? 0) then futex_lock_retry rest futex thread_id
      else Some futex
  end.

Definition futex_lock (get_tid : Z) (strex : list bool) (futex : futex_t)
    : option (Z * futex_t) :=
  let thread_id := uint8 get_tid in
  match futex_lock_retry strex futex thread_id with
  | Some futex => Some (0, set_owner thread_id futex)
  | None => None
  end.

(** [n] claims in a row by one thread, each with its reservation intact:
    the list of results and the lock afterwards. *)
Fixpoint futex_claims (n : nat) (futex : futex_t) (thread_id max_depth : Z)
    : list Z * futex_t :=
  match n with
  | O => ([], futex)
  | S n =>
      let '(success, futex) := __futex_fast_lock true futex thread_id max_depth in
      let '(rest, futex) := futex_claims n futex thread_id max_depth in
      (success :: rest, futex)
  end.

(** ** The binary lock under preemption

    [mutex_lock] and [mutex_unlock] cut at their accesses to the lock
    object, so that threads can be preempted between any two of them.  A
    control point names the access a thread performs next; the local
    [tmp_state] travels with it. *)

Inductive pc : Type :=
| Out                                  (* not inside a lock routine *)
| Lock_ldrex                           (* tmp_state = __LDREXB(&mutex->state) *)
| Lock_owner_tid (tmp_state : Z)       (* mutex->owner != thread_id *)
| Lock_owner_ff (tmp_state : Z)        (* && mutex->owner != 0xFF *)
| Lock_yield                           (* sched_yield(); continue *)
| Lock_strex                           (* success = __STREXB(&mutex->state, 1) *)
| Lock_set_owner                       (* mutex->owner = thread_id; return 0 *)
| Unlock_ldrex                         (* tmp_state = __LDREXB(&mutex->state) *)
| Unlock_owner (tmp_state : Z)         (* mutex->owner != thread_id *)
| Unlock_retry_ldrex                   (* do { tmp_state = __LDREXB(...) *)
| Unlock_retry_strex                   (* success = __STREXB(&mutex->state, 0) *)
| Unlock_set_owner.                    (* mutex->owner = 0xFF; return 0 *)

(** A thread: where it is, and whether it is inside its critical section,
    that is, whether it got 0 back from [mutex_lock] and has not cleared the
    state byte in [mutex_unlock] since. *)
Record thread := Thread { at_pc : pc; holds : bool }.

(** The lock object, the exclusive monitor and the threads by identity.
    The monitor holds the thread whose LDREXB reservation is in place, if
    any: a load-exclusive takes it over, any store-exclusive and CLREX
    clear it, and a store-exclusive succeeds only for the thread whose
    reservation is still there (a context switch in between clears the
    local monitor, so a reservation never serves another thread). *)
Record system := System {
  mutex : mutex_t;
  monitor : option Z;
  threads : Z → thread
}.

Definition idle : thread := {| at_pc := Out; holds := false |}.

Definition boot : system :=
  {| mutex := {| owner := 0xFF; flags := MUTEX_INITIALIZED; state := 0 |};
     monitor := None;
     threads := λ _, idle |}.

(** Thread identities are bytes; 0xFF is the owner byte of a free lock and
    names no thread. *)
Definition is_tid (t : Z) : bool := (0 <=? t) && (t <? 0xFF).

Definition reserved (t : Z) (s : system) : bool :=
  match monitor s with Some r => r =? t | None => false end.

Definition goto (t : Z) (p : pc) (s : system) : system :=
  {| mutex := mutex s; monitor := monitor s;
     threads := <[t := {| at_pc := p; holds := holds (threads s t) |}]> (threads s) |}.

Definition set_holds (t : Z) (b : bool) (s : system) : system :=
  {| mutex := mutex s; monitor := monitor s;
     threads := <[t := {| at_pc := at_pc (threads s t); holds := b |}]> (threads s) |}.

Definition set_monitor (r : option Z) (s : system) : system :=
  {| mutex := mutex s; monitor := r; threads := threads s |}.

Definition set_mutex (m : mutex_t) (s : system) : system :=
  {| mutex := m; monitor := monitor s; threads := threads s |}.

(** What the scheduler may let happen next. *)
Inductive event : Type :=
| Call_lock (t : Z)                    (* thread [t] enters mutex_lock *)
| Call_unlock (t : Z)                  (* thread [t] enters mutex_unlock *)
| Access (t : Z) (spurious : bool).    (* [t] performs its next access; a
                                          store-exclusive may fail spuriously *)

(** [if (tmp_state == 0) { STREXB ... }], else around the loop again. *)
Definition lock_test (tmp_state : Z) : pc :=
  if tmp_state =? 0 then Lock_strex else Lock_ldrex.

Definition access (t : Z) (spurious : bool) (s : system) : option system :=
  let m := mutex s in
  match at_pc (threads s t) with
  | Out => None
  | Lock_ldrex =>
      Some (goto t (Lock_owner_tid (state m)) (set_monitor (Some t) s))
  | Lock_owner_tid tmp_state =>
      if negb (owner m =? t) then Some (goto t (Lock_owner_ff tmp_state) s)
      else Some (goto t (lock_test tmp_state) s)
  | Lock_owner_ff tmp_state =>
      if negb (owner m =? 0xFF) then Some (goto t Lock_yield s)
      else Some (goto t (lock_test tmp_state) s)
  | Lock_yield => Some (goto t Lock_ldrex s)
  | Lock_strex =>
      if reserved t s && negb spurious then
        Some (goto t Lock_set_owner (set_monitor None (set_mutex (set_state 1 m) s)))
      else Some (goto t Lock_yield (set_monitor None s))
  | Lock_set_owner =>
      Some (set_holds t true (goto t Out (set_mutex (set_owner t m) s)))
  | Unlock_ldrex =>
      Some (goto t (Unlock_owner (state m)) (set_monitor (Some t) s))
  | Unlock_owner tmp_state =>
      if negb (owner m =? t) then Some (goto t Out (set_monitor None s))
      else if tmp_state =? 0 then Some (goto t Out (set_monitor None s))
      else Some (goto t Unlock_retry_ldrex s)
  | Unlock_retry_ldrex =>
      Some (goto t Unlock_retry_strex (set_monitor (Some t) s))
  | Unlock_retry_strex =>
      if reserved t s && negb spurious then
        Some (set_holds t false
                (goto t Unlock_set_owner
                   (set_monitor None (set_mutex (set_state 0 m) s))))
      else Some (goto t Unlock_retry_ldrex (set_monitor None s))
  | Unlock_set_owner =>
      Some (goto t Out (set_mutex (set_owner 0xFF m) s))
  end.

(** One scheduling step; [None] when the event cannot happen in [s]. *)
Definition step (e : event) (s : system) : option system :=
  match e with
  | Call_lock t =>
      if is_tid t then
        match at_pc (threads s t) with
        | Out => Some (goto t Lock_ldrex s)
        | _ => None
        end
      else None
  | Call_unlock t =>
      if is_tid t then
        match at_pc (threads s t) with
        | Out => Some (goto t Unlock_ldrex s)
        | _ => None
        end
      else None
  | Access t spurious => if is_tid t then access t spurious s else None
  end.

Fixpoint run (tr : list event) (s : system) : option system :=
  match tr with
  | [] => Some s
  | e :: tr => match step e s with Some s => run tr s | None => None end
  end.

(** The states some interleaving of lock and unlock calls leads to. *)
Definition reachable (s : system) : Prop := ∃ tr, run tr boot = Some s.

Definition in_critical_section (s : system) (t : Z) : Prop :=
  holds (threads s t) = true.

(** The thread an event belongs to. *)
Definition event_thread (e : event) : Z :=
  match e with Call_lock t | Call_unlock t | Access t _ => t end.

(** ** Kernel configuration (the configuration header of the port) *)

Definition MPU_STATE_SIZE : Z := 7.
Definition MPU_HOSTED_STATE_SIZE : Z := 4.
Definition OS_TASK_MPU_REGIONS : Z := 5.
Definition OS_STACK_SIZE : Z := 1024.
Definition OS_THREADS : Z := 8.
Definition OS_STACKS : Z := 8.
Definition OS_PROCESSES : Z := 8.

(** ** Memory

    A 32-bit address space of words; an address is reduced modulo 2^32
    where it is used, as pointer arithmetic on the target does. *)

Definition memory : Type := Z → Z.

Definition load32 (mem : memory) (addr : Z) : Z := mem (uint32 addr).
Definition store32 (mem : memory) (addr v : Z) : memory :=
  <[uint32 addr := v]> mem.

(** [&base[i]] for an array of 32-bit words and an [unsigned] index. *)
Definition word_at (base i : Z) : Z := uint32 (base + 4 * uint32 i).

(** The eight words the processor stacks on exception entry and unstacks on
    exception return, lowest address first. *)
Record ExceptionFrame := Frame {
  r0 : Z; r1 : Z; r2 : Z; r3 : Z; r12 : Z; lr : Z; pc_reg : Z; xpsr : Z
}.

Definition exception_frame_at (mem : memory) (sp : Z) : ExceptionFrame :=
  {| r0 := load32 mem sp;         r1 := load32 mem (sp + 4);
     r2 := load32 mem (sp + 8);   r3 := load32 mem (sp + 12);
     r12 := load32 mem (sp + 16); lr := load32 mem (sp + 20);
     pc_reg := load32 mem (sp + 24); xpsr := load32 mem (sp + 28) |}.

(** The Thumb state bit of xPSR. *)
Definition XPSR_T : Z := Z.shiftl 1 24.

(** ** Scheduler ([src/os/arch/arm/sched.c]) *)

(** Kernel symbols the scheduler file refers to and does not define. *)
Class Runtime := {
  os_stack_get : Z → Z;            (* base address of the stack with this id *)
  os_thread_dispose : Z            (* address of the dispose continuation *)
}.

(** Returns the address SP shall be set to, and the memory with the stack
    populated. *)
Definition os_thread_populate_stack `{Runtime} (stack_id stack_size : Z)
    (entrypoint data : Z) (mem : memory) : Z * memory :=
  let stack := os_stack_get stack_id in
  let mem := store32 mem (word_at stack (stack_size - 8)) data in              (* R0 *)
  let mem := store32 mem (word_at stack (stack_size - 3)) os_thread_dispose in (* LR *)
  let mem := store32 mem (word_at stack (stack_size - 2)) entrypoint in        (* PC *)
  let mem := store32 mem (word_at stack (stack_size - 1)) 0x01000000 in        (* xPSR *)
  (word_at stack (stack_size - 16), mem).

(** *** Process table *)

Record MPU_Registers := { _MPU_RBAR : Z; _MPU_RASR : Z }.

(** One [mpu_regions[q]] entry of a process definition: a byte range. *)
Record mpu_region_t := { start : Z; end_ : Z }.

Record OS_process_definition_t := { mpu_regions : list mpu_region_t }.

(** A slot of [os_processes]: [definition = None] is the NULL pointer. *)
Record OS_process_t := {
  definition : option OS_process_definition_t;
  mpu : list MPU_Registers
}.

Definition set_definition (d : option OS_process_definition_t)
    (p : OS_process_t) : OS_process_t :=
  {| definition := d; mpu := mpu p |}.
Definition set_mpu (m : list MPU_Registers) (p : OS_process_t) : OS_process_t :=
  {| definition := definition p; mpu := m |}.

#[global] Instance MPU_Registers_inhabited : Inhabited MPU_Registers :=
  populate {| _MPU_RBAR := 0; _MPU_RASR := 0 |}.
#[global] Instance mpu_region_inhabited : Inhabited mpu_region_t :=
  populate {| start := 0; end_ := 0 |}.
#[global] Instance OS_process_inhabited : Inhabited OS_process_t :=
  populate {| definition := None; mpu := [] |}.

(** The protection-unit driver, used through its interface only.
    [mpu_configure_region region base size cls regs] is given the current
    contents of the two registers it may write and returns its result code
    with their contents afterwards. *)
Class Mpu := {
  MPU_RW : Z;
  mpu_configure_region : Z → Z → Z → Z → MPU_Registers → Z * MPU_Registers
}.

(** The body of [for (q = ...; q < OS_TASK_MPU_REGIONS; ++q)], with [n]
    iterations left, on the slot of the process being created. *)
Fixpoint os_process_create_regions `{Mpu} (n : nat) (q : Z)
    (def : OS_process_definition_t) (p : OS_process_t) : Z * OS_process_t :=
  match n with
  | O => (E_OK, p)
  | S n =>
      let region := mpu_regions def !!! Z.to_nat q in
      let reg_size := uint32 (end_ region - start region) in
      let '(rv, regs) :=
        mpu_configure_region q (start region) reg_size MPU_RW
          (mpu p !!! Z.to_nat q) in
      let p := set_mpu (<[Z.to_nat q := regs]> (mpu p)) p in
      if negb (rv =? E_OK) then (E_INVALID, set_definition None p)
      else os_process_create_regions n (q + 1) def p
  end.

Definition os_process_create `{Mpu} (process_id : Z)
    (def : OS_process_definition_t) (os_processes : list OS_process_t)
    : Z * list OS_process_t :=
  if OS_PROCESSES <=? process_id then (E_OUT_OF_RANGE, os_processes)
  else
    let p := os_processes !!! Z.to_nat process_id in
    match definition p with
    | Some _ => (E_INVALID, os_processes)
    | None =>
        let p := set_definition (Some def) p in
        let '(rv, p) :=
          os_process_create_regions (Z.to_nat OS_TASK_MPU_REGIONS) 0 def p in
        (rv, <[Z.to_nat process_id := p]> os_processes)
    end.

(** ** Cross-process calls ([src/os/arch/arm/rpc.c]) *)

Definition E_VTABLE_UNKNOWN : Z := 0xFF.

(** The activation-record helpers of the Cortex-M port and the stack
    pointer sanitizer: an interface here.  [sanitize_psp] is an assertion on
    the process stack pointer; the frame helpers read or write memory. *)
Class Cortex := {
  sanitize_psp : Z → bool;
  get_exception_argument : memory → Z → Z → Z;
  set_exception_argument : memory → Z → Z → Z → memory;
  push_exception_frame : memory → Z → Z → Z * memory;
  pop_exception_frame : memory → Z → Z → Z;
  set_exception_pc_lr : memory → Z → Z → Z → memory
}.

(** What [rpc.c] declares and leaves to the rest of the kernel: the return
    trampoline, the resolver from a method table to its exporting process,
    and the configured depth of a thread's call stack. *)
Class Rpc_externs := {
  rpc_return : Z;
  get_vtable_process : list OS_process_t → Z → Z;
  RPC_STACK_DEPTH : nat
}.

(** The kernel state a call or return touches, for the running thread. *)
Record kernel := Kernel {
  PSP : Z;                              (* process stack pointer *)
  ram : memory;                         (* activation records live here *)
  rpc_stack : list Z;                   (* the thread's call stack, top first *)
  current_process : Z;                  (* the thread's owning process *)
  os_processes : list OS_process_t;
  mpu_hw : list MPU_Registers           (* the active mapping *)
}.

(** A system call either returns to its caller or stops the kernel.
    Modelled from the spec: a failed [ASSERT] of [<cmrx/assert.h>] is a
    fatal kernel condition and halts. *)
Inductive outcome : Type :=
| Returned (rv : Z) (k : kernel)
| Halted.

(** Modelled from the spec: [rpc_stack_push], [rpc_stack_pop] and
    [rpc_stack_top] are declared in [rpc.c] and defined elsewhere.  The
    thread's call stack is a bounded stack of process ids: a push on a stack
    at capacity fails and changes nothing; a pop removes the top entry and
    reports the depth that remains; the top is the most recent entry. *)
Definition rpc_stack_push `{Rpc_externs} (process_id : Z) (stack : list Z)
    : option (list Z) :=
  if (length stack <? RPC_STACK_DEPTH)%nat then Some (process_id :: stack)
  else None.

Definition rpc_stack_pop (stack : list Z) : Z * list Z :=
  (Z.of_nat (length (tail stack)), tail stack).

Definition rpc_stack_top (stack : list Z) : Z := hd E_VTABLE_UNKNOWN stack.

(** Modelled from the spec: [os_get_current_process] answers the owning
    (home) process of the running thread. *)
Definition os_get_current_process (k : kernel) : Z := current_process k.

(** Modelled from the spec: [mpu_load state base count] puts the first
    [count] region descriptors of [state] into the active mapping, from
    hardware region [base] on. *)
Definition mpu_load (state : list MPU_Registers) (base count : Z)
    (hw : list MPU_Registers) : list MPU_Registers :=
  take (Z.to_nat base) hw ++ take (Z.to_nat count) state
    ++ drop (Z.to_nat (base + count)) hw.

(** [for (q = 0; q < 4; ++q) set_exception_argument(remote, q + 1,
    get_exception_argument(local, q))], with [n] iterations left. *)
Fixpoint forward_arguments `{Cortex} (n : nat) (q : Z)
    (local_frame remote_frame : Z) (mem : memory) : memory :=
  match n with
  | O => mem
  | S n =>
      let mem :=
        set_exception_argument mem remote_frame (q + 1)
          (get_exception_argument mem local_frame q) in
      forward_arguments n (q + 1) local_frame remote_frame mem
  end.

Definition os_rpc_call `{Cortex} `{Rpc_externs} (arg0 arg1 arg2 arg3 : Z)
    (k : kernel) : outcome :=
  let local_frame := PSP k in
  if negb (sanitize_psp local_frame) then Halted else
  let service := get_exception_argument (ram k) local_frame 4 in
  let vtable := load32 (ram k) service in              (* service->vtable *)
  let process_id := get_vtable_process (os_processes k) vtable in
  if process_id =? E_VTABLE_UNKNOWN then Returned E_INVALID_ADDRESS k
  else
    match rpc_stack_push process_id (rpc_stack k) with
    | None => Returned E_IN_TOO_DEEP k
    | Some stack =>
        let hw :=
          mpu_load (mpu (os_processes k !!! Z.to_nat process_id)) 0
            MPU_HOSTED_STATE_SIZE (mpu_hw k) in
        let method_id := get_exception_argument (ram k) local_frame 5 in
        let method := load32 (ram k) (word_at vtable method_id) in
        let '(remote_frame, mem) := push_exception_frame (ram k) local_frame 2 in
        if negb (sanitize_psp remote_frame) then Halted else
        let mem := forward_arguments 4 0 local_frame remote_frame mem in
        let mem := set_exception_argument mem remote_frame 0 service in
        let mem := set_exception_argument mem remote_frame 5 0xAA55AA55 in
        let mem := set_exception_pc_lr mem remote_frame method rpc_return in
        Returned (sint32 arg0)
          {| PSP := remote_frame; ram := mem; rpc_stack := stack;
             current_process := current_process k;
             os_processes := os_processes k; mpu_hw := hw |}
    end.

Definition os_rpc_return `{Cortex} (arg0 arg1 arg2 arg3 : Z) (k : kernel)
    : outcome :=
  let remote_frame := PSP k in
  if negb (sanitize_psp remote_frame) then Halted else
  let local_frame := pop_exception_frame (ram k) remote_frame 2 in
  let '(pstack_depth, stack) := rpc_stack_pop (rpc_stack k) in
  let process_id :=
    if 0 <? pstack_depth then rpc_stack_top stack
    else os_get_current_process k in
  if process_id =? E_VTABLE_UNKNOWN then Halted        (* ASSERT(0) *)
  else
    let hw :=
      mpu_load (mpu (os_processes k !!! Z.to_nat process_id)) 0
        MPU_HOSTED_STATE_SIZE (mpu_hw k) in
    let mem := set_exception_argument (ram k) local_frame 0 arg0 in
    Returned (sint32 arg0)
      {| PSP := local_frame; ram := mem; rpc_stack := stack;
         current_process := current_process k;
         os_processes := os_processes k; mpu_hw := hw |}.

(** ** Vocabulary of the statements *)

(** What iteration [q] of the loop in [os_process_create] computes from
    the definition's region [q] and the registers of slot [p]: the driver's
    result code and the descriptor it leaves in [p]'s registers [q]. *)
Definition region_descriptor `{Mpu} (def : OS_process_definition_t)
    (p : OS_process_t) (q : Z) : Z * MPU_Registers :=
  let region := mpu_regions def !!! Z.to_nat q in
  mpu_configure_region q (start region)
    (uint32 (end_ region - start region)) MPU_RW (mpu p !!! Z.to_nat q).

(** The process whose mapping [os_rpc_return] is to restore once the
    thread's call stack has been popped down to [stack]. *)
Definition resumed_process (stack : list Z) (k : kernel) : Z :=
  match stack with
  | top :: _ => top
  | [] => current_process k
  end.

(** *** The invariant behind mutual exclusion *)

(** A thread is busy with the lock from the store-exclusive that takes it
    to the store that hands the owner byte back. *)
Definition handing_over (p : pc) : Prop :=
  p = Lock_set_owner ∨ p = Unlock_set_owner.

Definition busy (th : thread) : Prop :=
  holds th = true ∨ handing_over (at_pc th).

(** What the lock object looks like to thread [t], given where it is. *)
Definition phase_ok (m : mutex_t) (t : Z) (th : thread) : Prop :=
  (holds th = true → state m = 1 ∧ owner m = t) ∧
  match at_pc th with
  | Lock_set_owner => holds th = false ∧ state m = 1 ∧ owner m = 0xFF
  | Unlock_set_owner => holds th = false ∧ state m = 0 ∧ owner m = t
  | Unlock_retry_ldrex | Unlock_retry_strex => holds th = true
  | _ => True
  end.

(** What a reservation still in place tells its thread. *)
Definition reservation_ok (m : mutex_t) (th : thread) : Prop :=
  match at_pc th with
  | Lock_owner_tid tmp_state | Lock_owner_ff tmp_state => tmp_state = state m
  | Lock_strex => state m = 0 ∧ owner m = 0xFF
  | _ => True
  end.

Record inv (s : system) : Prop := Inv {
  inv_tid : ∀ t, busy (threads s t) → is_tid t = true;
  inv_phase : ∀ t, phase_ok (mutex s) t (threads s t);
  inv_unique : ∀ t1 t2,
    busy (threads s t1) → busy (threads s t2) → t1 = t2;
  inv_free : (state (mutex s) = 0 ∧ owner (mutex s) = 0xFF)
             ∨ ∃ t, busy (threads s t);
  inv_monitor : ∀ t, monitor s = Some t → reservation_ok (mutex s) (threads s t)
}.

(** *** Stand-ins for the interfaces, to run the definitions on *)

(** A driver that takes a region of at least 32 bytes, the smallest the
    protection unit knows, and leaves the registers alone otherwise. *)
Definition demo_mpu : Mpu :=
  {| MPU_RW := 3;
     mpu_configure_region region base size cls regs :=
       if size <? 32 then (E_INVALID, regs)
       else (E_OK, {| _MPU_RBAR := Z.lor base region; _MPU_RASR := size |}) |}.

Definition demo_slot : OS_process_t :=
  {| definition := None;
     mpu := replicate 5 {| _MPU_RBAR := 0; _MPU_RASR := 0 |} |}.

Definition demo_definition (third_size : Z) : OS_process_definition_t :=
  {| mpu_regions :=
       [ {| start := 0x20000000; end_ := 0x20000100 |};
         {| start := 0x20001000; end_ := 0x20001040 |};
         {| start := 0x20002000; end_ := 0x20002000 + third_size |};
         {| start := 0x08000000; end_ := 0x08001000 |};
         {| start := 0x40000000; end_ := 0x40000400 |} ] |}.

(** Frames of ten words below the caller's, arguments in place. *)
Definition demo_cortex : Cortex :=
  {| sanitize_psp psp := 0x20000000 <=? psp;
     get_exception_argument mem frame n := load32 mem (frame + 4 * n);
     set_exception_argument mem frame n v := store32 mem (frame + 4 * n) v;
     push_exception_frame mem frame args := (frame - 4 * (8 + args), mem);
     pop_exception_frame mem frame args := frame + 4 * (8 + args);
     set_exception_pc_lr mem frame pc lr :=
       store32 (store32 mem (frame + 24) pc) (frame + 20) lr |}.

(** Method tables of 0x100 bytes from 0x08001000 on, one per process; two
    levels of nesting. *)
Definition demo_rpc : Rpc_externs :=
  {| rpc_return := 0x08000041;
     get_vtable_process table vtable :=
       let process := (vtable - 0x08001000) / 0x100 in
       if (0 <=? process) && (process <? OS_PROCESSES) then process
       else E_VTABLE_UNKNOWN;
     RPC_STACK_DEPTH := 2 |}.

(** A thread of process 0 whose service handle, fifth argument of the
    trapped call, points at a word holding [vtable]. *)
Definition demo_kernel (vtable : Z) (stack : list Z) : kernel :=
  {| PSP := 0x20000800;
     ram := store32 (store32 (λ _, 0) (0x20000800 + 16) 0x20000400)
              0x20000400 vtable;
     rpc_stack := stack;
     current_process := 0;
     os_processes := replicate 8 demo_slot;
     mpu_hw := replicate 7 {| _MPU_RBAR := 0; _MPU_RASR := 0 |} |}.

(** Stacks of [OS_STACK_SIZE] bytes side by side from 0x20001000 on. *)
Definition demo_runtime : Runtime :=
  {| os_stack_get stack_id := 0x20001000 + OS_STACK_SIZE * stack_id;
     os_thread_dispose := 0x08000101 |}.

(** Thread 1 takes the lock while thread 2 comes asking and is sent to
    yield. *)
Definition demo_trace : list event :=
  [ Call_lock 1; Access 1 false; Call_lock 2; Access 1 false; Access 1 false;
    Access 1 false; Access 2 false; Access 1 false; Access 2 false;
    Access 2 false ].

(** Where that leaves the machine. *)
Definition demo_system : system := default boot (run demo_trace boot).

(** The words of a stack that [os_thread_populate_stack] writes, counted
    back from [stack_size]: R0, LR, PC and xPSR. *)
Definition written_slot (k : Z) : Prop := k = 8 ∨ k = 3 ∨ k = 2 ∨ k = 1.

(** *** A thread running on its own *)

(** One turn of the loop of [mutex_lock] on a lock that looks free: the
    load-exclusive, the two owner tests, the store-exclusive, and then
    either the yield (the store failed) or the owner store. *)
Definition lock_attempt (t : Z) (spurious : bool) : list event :=
  [ Access t false; Access t false; Access t false; Access t spurious;
    Access t false ].

(** [mutex_lock] by thread [t], its store-exclusive failing spuriously
    [failures] times before it goes through. *)
Definition lone_lock (t : Z) (failures : nat) : list event :=
  Call_lock t :: concat (replicate failures (lock_attempt t true))
    ++ lock_attempt t false.

(** [mutex_unlock] by thread [t] on a lock it holds: the load-exclusive
    and the owner test, [failures] turns of the release loop with a failing
    store-exclusive, the turn that goes through, and the owner store. *)
Definition lone_unlock (t : Z) (failures : nat) : list event :=
  [ Call_unlock t; Access t false; Access t false ]
    ++ concat (replicate failures [ Access t false; Access t true ])
    ++ [ Access t false; Access t false; Access t false ].

(** The control points inside the loop of [mutex_lock]. *)
Definition in_mutex_lock (p : pc) : Prop :=
  match p with
  | Lock_ldrex | Lock_owner_tid _ | Lock_owner_ff _ | Lock_yield | Lock_strex => True
  | _ => False
  end.

(** * Properties *)

(** ** Machine integers *)

Lemma uint8_small (x : Z) : 0 <= x <= 255 → uint8 x = x.
Proof. intros Hx. unfold uint8. apply Z.mod_small. lia. Qed.

Lemma uint32_small (x : Z) : 0 <= x < 2 ^ 32 → uint32 x = x.
Proof. intros Hx. unfold uint32. apply Z.mod_small. lia. Qed.

Lemma sint32_small (x : Z) : 0 <= x < 2 ^ 31 → sint32 x = x.
Proof.
  intros Hx. unfold sint32. rewrite uint32_small by lia.
  destruct (Z.ltb_spec x (2 ^ 31)); lia.
Qed.

(** ** Binary lock, one thread at a time *)

(** Initialization leaves a lock unlocked; the machine starts from one. *)
Lemma mutex_init_unlocked (m : mutex_t) : unlocked (mutex_init m).2.
Proof. split; reflexivity. Qed.

Lemma boot_mutex_initialized :
  mutex boot = (mutex_init {| owner := 0; flags := 0; state := 0 |}).2.
Proof. reflexivity. Qed.

Lemma mutex_trylock_not_owner (t : Z) (strex_ok : bool) (m : mutex_t) :
  owner m ≠ uint8 t → mutex_trylock t strex_ok m = (E_BUSY, m).
Proof.
  intros Hne. unfold mutex_trylock.
  destruct (Z.eqb_spec (owner m) (uint8 t)); [contradiction | reflexivity].
Qed.

Lemma mutex_trylock_owner_free (t : Z) (m : mutex_t) :
  owner m = uint8 t → state m = 0 →
  mutex_trylock t true m = (0, set_owner (uint8 t) (set_state 1 m)).
Proof.
  intros Ho Hs. unfold mutex_trylock.
  rewrite Ho, Z.eqb_refl, Hs. reflexivity.
Qed.

(** C1, evaluated on the code: thread 1 calls [mutex_trylock] on an unlocked
    binary lock (state 0, owner 0xFF), whatever its flags and whether or not
    the store-exclusive would succeed.  The owner test compares 0xFF with
    the caller alone, so the call answers [E_BUSY] and the lock stays
    unlocked: state is not 1 and the owner is not thread 1. *)
Theorem mutex_trylock_unlocked_busy (fl : Z) (strex_ok : bool) :
  let m := {| owner := 0xFF; flags := fl; state := 0 |} in
  mutex_trylock 1 strex_ok m = (E_BUSY, m) ∧ E_BUSY ≠ 0 ∧
  state m ≠ 1 ∧ owner m ≠ 1.
Proof. cbn. repeat split; discriminate. Qed.

(** C2, evaluated on the code: thread 1 calls [mutex_unlock] on a binary
    lock that is already unlocked (state 0, owner 0xFF).  The owner test
    comes before the state test and knows no unowned lock, so the call
    answers [E_BUSY], not the success the claim states and the routine's
    own branch for a lock with state 0 would give; the lock is untouched. *)
Lemma mutex_unlock_refuses_unlocked :
  unlocked {| owner := 0xFF; flags := 1; state := 0 |} ∧
  mutex_unlock 1 [true] {| owner := 0xFF; flags := 1; state := 0 |}
  = Some (E_BUSY, {| owner := 0xFF; flags := 1; state := 0 |}) ∧
  E_BUSY ≠ 0.
Proof. repeat split; discriminate. Qed.

(** What the routine does on an unlocked lock for any caller: the owner
    test alone decides, and the lock is left as it was. *)
Lemma mutex_unlock_unlocked (t : Z) (strex : list bool) (m : mutex_t) :
  unlocked m →
  mutex_unlock t strex m = Some (if uint8 t =? 0xFF then 0 else E_BUSY, m).
Proof.
  intros [Hs Ho]. unfold mutex_unlock. rewrite Ho, Hs.
  rewrite (Z.eqb_sym 255 (uint8 t)).
  destruct (uint8 t =? 255); reflexivity.
Qed.

(** No thread gets the success of the state-0 branch on an unlocked lock:
    a thread identity is never 0xFF. *)
Lemma mutex_unlock_unlocked_every_thread (t : Z) (strex : list bool) (m : mutex_t) :
  is_tid t = true → unlocked m → mutex_unlock t strex m = Some (E_BUSY, m).
Proof.
  intros Ht Hun. rewrite mutex_unlock_unlocked by done.
  unfold is_tid in Ht. apply andb_true_iff in Ht as [H0%Z.leb_le H1%Z.ltb_lt].
  rewrite uint8_small by lia.
  destruct (Z.eqb_spec t 255); [lia | reflexivity].
Qed.

(** The no-op of the source: an owner unlocking with state 0. *)
Lemma mutex_unlock_owner_state_zero (t : Z) (strex : list bool) (m : mutex_t) :
  owner m = uint8 t → state m = 0 → mutex_unlock t strex m = Some (0, m).
Proof.
  intros Ho Hs. unfold mutex_unlock. rewrite Ho, Z.eqb_refl, Hs. reflexivity.
Qed.

(** The release proper: the owner of a held lock gets it back unlocked as
    soon as one store-exclusive goes through. *)
Lemma mutex_unlock_retry_succeeds (strex : list bool) (m : mutex_t) :
  true ∈ strex → mutex_unlock_retry strex m = Some (set_state 0 m).
Proof.
  induction strex as [|ok rest IH]; intros Hin.
  - by apply elem_of_nil in Hin.
  - cbn. destruct ok; [reflexivity|].
    apply elem_of_cons in Hin as [Hin|Hin]; [discriminate | auto].
Qed.

Lemma mutex_unlock_owner_held (t : Z) (strex : list bool) (m : mutex_t) :
  owner m = uint8 t → state m ≠ 0 → true ∈ strex →
  mutex_unlock t strex m = Some (0, set_owner 0xFF (set_state 0 m)).
Proof.
  intros Ho Hs Hin. unfold mutex_unlock. rewrite Ho, Z.eqb_refl. cbn.
  destruct (Z.eqb_spec (state m) 0); [contradiction|].
  by rewrite mutex_unlock_retry_succeeds.
Qed.

(** ** Recursive lock *)

Lemma set_state_set_state (a b : Z) (f : futex_t) :
  set_state a (set_state b f) = set_state a f.
Proof. reflexivity. Qed.

Lemma set_state_same (f : futex_t) : set_state (state f) f = f.
Proof. by destruct f. Qed.

(** The claim primitive with the reservation intact, as one case split:
    refused for a foreign owner or a depth above [max_depth] (signed
    comparison), otherwise the depth goes up by one. *)
Lemma futex_fast_lock_cases (f : futex_t) (t m : Z) :
  futex_wf f → owner f = 0xFF ∨ owner f = t →
  (state f <= sint32 m ∧
   __futex_fast_lock true f t m = (0, set_state (uint8 (state f + 1)) f))
  ∨ (sint32 m < state f ∧ __futex_fast_lock true f t m = (1, f)).
Proof.
  intros (_ & _ & Hs) Ho. unfold __futex_fast_lock.
  assert ((owner f =? 255) || (owner f =? t) = true) as ->.
  { destruct Ho as [-> | ->]; rewrite ?Z.eqb_refl, ?orb_true_r; reflexivity. }
  rewrite (sint32_small (state f)) by lia.
  destruct (Z.ltb_spec (sint32 m) (state f)); [right | left]; split; auto; lia.
Qed.

Lemma futex_claims_until_full (n : nat) : ∀ (f : futex_t) (t m : Z),
  futex_wf f → owner f = 0xFF ∨ owner f = t → 0 <= m <= 254 →
  state f + Z.of_nat n = m + 1 →
  futex_claims (S n) f t m = (replicate n 0 ++ [1], set_state (m + 1) f).
Proof.
  induction n as [|n IH]; intros f t m Hwf Ho Hm Hn.
  - cbn [futex_claims replicate app].
    destruct (futex_fast_lock_cases f t m Hwf Ho) as [[Hle _] | [_ ->]].
    + rewrite sint32_small in Hle by lia. lia.
    + replace (m + 1) with (state f) by lia. by rewrite set_state_same.
  - change (futex_claims (S (S n)) f t m) with
      (let '(success, f') := __futex_fast_lock true f t m in
       let '(rest, f'') := futex_claims (S n) f' t m in (success :: rest, f'')).
    destruct (futex_fast_lock_cases f t m Hwf Ho) as [[_ ->] | [Hlt _]].
    + destruct Hwf as (Hwo & Hwf & Hws).
      rewrite uint8_small by lia.
      rewrite (IH (set_state (state f + 1) f) t m); cbn; try lia; auto.
      repeat split; cbn; lia.
    + rewrite sint32_small in Hlt by lia. lia.
Qed.

(** C3 as stated fails: with maximum depth 0, the one the callers in the
    file pass, a claim at depth 0 succeeds although 0 is not strictly less
    than 0; the first claim goes through where the claim allows none. *)
Lemma futex_fast_lock_at_max_depth :
  fst (__futex_fast_lock true {| owner := 0xFF; flags := 0; state := 0 |} 1 0) = 0
  ∧ ¬ (state {| owner := 0xFF; flags := 0; state := 0 |} < 0).
Proof. split; [reflexivity | cbn; lia]. Qed.

(** C3, amended: for the claim primitive [__futex_fast_lock] with
    maximum-depth parameter [m], a claim by the owner or on an unowned lock,
    its reservation intact, succeeds exactly when the current depth is at
    most [m] (compared as signed 32-bit numbers): [m] is the deepest the
    lock may already be.  So from depth 0 and for [m <= 254] the owner's
    first [m + 1] claims in a row succeed and attempt [m + 2] fails, leaving
    the depth at [m + 1]. *)
Theorem futex_fast_lock_depth (f : futex_t) (t m : Z) :
  futex_wf f → owner f = 0xFF ∨ owner f = t →
  (fst (__futex_fast_lock true f t m) = 0 ↔ state f <= sint32 m) ∧
  (0 <= m <= 254 → state f = 0 →
   futex_claims (Z.to_nat (m + 2)) f t m
   = (replicate (Z.to_nat (m + 1)) 0 ++ [1], set_state (m + 1) f)).
Proof.
  intros Hwf Ho. split.
  - destruct (futex_fast_lock_cases f t m Hwf Ho) as [[Hle ->] | [Hlt ->]];
      cbn; split; intros; (reflexivity || lia).
  - intros Hm Hs.
    replace (Z.to_nat (m + 2)) with (S (Z.to_nat (m + 1))) by lia.
    apply futex_claims_until_full; auto. lia.
Qed.

Lemma futex_fast_lock_depth_witness :
  (fst (__futex_fast_lock true {| owner := 0xFF; flags := 0; state := 0 |} 5 2) = 0
   ↔ 0 <= sint32 2) ∧
  futex_claims 4 {| owner := 0xFF; flags := 0; state := 0 |} 5 2
  = ([0; 0; 0; 1], {| owner := 0xFF; flags := 0; state := 3 |}).
Proof.
  destruct (futex_fast_lock_depth {| owner := 0xFF; flags := 0; state := 0 |} 5 2)
    as [Hiff Hrow].
  - repeat split; cbn; lia.
  - left; reflexivity.
  - split; [exact Hiff|]. apply Hrow; [lia | reflexivity].
Defined.

(** [futex_trylock] is the primitive at maximum depth 0: one level. *)
Lemma futex_trylock_spec (t : Z) (f : futex_t) :
  futex_wf f → owner f = 0xFF ∨ owner f = uint8 t →
  futex_trylock t true f
  = if state f =? 0 then (0, set_state 1 f) else (1, f).
Proof.
  intros Hwf Ho. unfold futex_trylock.
  destruct (futex_fast_lock_cases f (uint8 t) 0 Hwf Ho) as [[Hle ->] | [Hlt ->]];
    destruct Hwf as (_ & _ & Hs); change (sint32 0) with 0 in *.
  - assert (state f = 0) as -> by lia. reflexivity.
  - destruct (Z.eqb_spec (state f) 0); [lia | reflexivity].
Qed.

(** C10: for every thread identity [t], [futex_unlock] on a recursive lock
    whose depth is 0 returns a nonzero result and leaves the lock, state
    and owner included, as it was: not a successful no-op. *)
Theorem futex_unlock_depth_zero (t : Z) (strex_ok : bool) (f : futex_t) :
  state f = 0 →
  fst (futex_unlock t strex_ok f) ≠ 0 ∧ snd (futex_unlock t strex_ok f) = f.
Proof.
  intros Hs. unfold futex_unlock, __futex_fast_unlock. rewrite Hs. cbn.
  split; [discriminate | reflexivity].
Qed.

Lemma futex_unlock_depth_zero_witness :
  fst (futex_unlock 2 true {| owner := 0xFF; flags := 0; state := 0 |}) ≠ 0 ∧
  snd (futex_unlock 2 true {| owner := 0xFF; flags := 0; state := 0 |})
  = {| owner := 0xFF; flags := 0; state := 0 |}.
Proof.
  apply (futex_unlock_depth_zero 2 true {| owner := 0xFF; flags := 0; state := 0 |}).
  reflexivity.
Defined.

(** ** Process creation *)

Section process_create.
Context `{Mpu}.
Implicit Types (def : OS_process_definition_t) (p : OS_process_t).
Implicit Types (os_processes : list OS_process_t).

(** C7: [os_process_create] answers the range error for every
    [process_id] at or above the capacity of the process table, and the
    duplicate error ([E_INVALID]) for every in-range [process_id] whose
    slot already has a definition; either way the table it hands back is
    the one it was given. *)
Theorem os_process_create_rejects process_id def os_processes :
  (OS_PROCESSES <= process_id →
   os_process_create process_id def os_processes
   = (E_OUT_OF_RANGE, os_processes)) ∧
  (∀ p, 0 <= process_id < OS_PROCESSES →
   os_processes !! Z.to_nat process_id = Some p →
   definition p ≠ None →
   os_process_create process_id def os_processes = (E_INVALID, os_processes)).
Proof.
  unfold os_process_create. split.
  - intros Hge. destruct (Z.leb_spec OS_PROCESSES process_id); [reflexivity | lia].
  - intros p Hid Hp Hdef.
    destruct (Z.leb_spec OS_PROCESSES process_id); [lia|].
    rewrite (list_lookup_total_correct _ _ _ Hp).
    destruct (definition p); [reflexivity | contradiction].
Qed.

(** One turn of the loop. *)
Lemma os_process_create_regions_S (n : nat) (q : Z) def p :
  os_process_create_regions (S n) q def p
  = let p1 := set_mpu (<[Z.to_nat q := (region_descriptor def p q).2]> (mpu p)) p in
    if negb ((region_descriptor def p q).1 =? E_OK)
    then (E_INVALID, set_definition None p1)
    else os_process_create_regions n (q + 1) def p1.
Proof.
  cbn [os_process_create_regions]. unfold region_descriptor.
  by destruct (mpu_configure_region _ _ _ _ _).
Qed.

(** An iteration leaves the registers of the later regions alone, so it
    does not change what they are going to be configured from. *)
Lemma region_descriptor_insert def p (q j : Z) (regs : MPU_Registers) :
  0 <= q < j →
  region_descriptor def (set_mpu (<[Z.to_nat q := regs]> (mpu p)) p) j
  = region_descriptor def p j.
Proof.
  intros Hj. unfold region_descriptor. cbn.
  rewrite list_lookup_total_insert_ne by lia. reflexivity.
Qed.

(** The loop started at region [q], when region [k] is the first the
    driver refuses: it stops there with [E_INVALID] and a cleared
    definition; regions [q..k-1] hold their new descriptors and the
    regions below [q] are as they were. *)
Lemma os_process_create_regions_fail (k : Z) def (n : nat) : ∀ (q : Z) p,
  0 <= q <= k → k < q + Z.of_nat n →
  (Z.to_nat k < length (mpu p))%nat →
  (∀ j, q <= j < k → (region_descriptor def p j).1 = E_OK) →
  (region_descriptor def p k).1 ≠ E_OK →
  ∃ p', os_process_create_regions n q def p = (E_INVALID, p')
    ∧ definition p' = None
    ∧ length (mpu p') = length (mpu p)
    ∧ (∀ j, q <= j < k → mpu p' !! Z.to_nat j = Some (region_descriptor def p j).2)
    ∧ (∀ j, 0 <= j < q → mpu p' !! Z.to_nat j = mpu p !! Z.to_nat j).
Proof.
  induction n as [|n IH]; intros q p Hq Hn Hlen Hok Hbad; [lia|].
  rewrite os_process_create_regions_S. cbv zeta.
  set (p1 := set_mpu _ p).
  destruct (Z.eq_dec q k) as [-> | Hqk].
  - destruct (Z.eqb_spec (region_descriptor def p k).1 E_OK); [contradiction|].
    exists (set_definition None p1). cbn.
    rewrite length_insert. repeat split; [intros; lia|].
    intros j Hj. apply list_lookup_insert_ne. lia.
  - rewrite (Hok q), Z.eqb_refl by lia. cbn [negb].
    destruct (IH (q + 1) p1) as (p' & Hrun & Hdef & Hlen' & Hnew & Hold).
    + lia.
    + lia.
    + subst p1; cbn. by rewrite length_insert.
    + intros j Hj. subst p1. rewrite region_descriptor_insert by lia.
      apply Hok. lia.
    + subst p1. rewrite region_descriptor_insert by lia. exact Hbad.
    + exists p'. split; [exact Hrun|]. split; [exact Hdef|].
      split; [subst p1; cbn in Hlen'; by rewrite length_insert in Hlen'|].
      split.
      * intros j Hj. destruct (Z.eq_dec j q) as [-> | Hjq].
        -- rewrite Hold by lia. subst p1; cbn.
           apply list_lookup_insert_eq. lia.
        -- rewrite Hnew by lia. subst p1.
           by rewrite region_descriptor_insert by lia.
      * intros j Hj. rewrite Hold by lia. subst p1; cbn.
        apply list_lookup_insert_ne. lia.
Qed.

(** C6: [os_process_create] on an in-range process id whose slot [p] has
    no definition yet, when the driver accepts regions [0..k-1] and
    refuses region [k] (one of the slot's registers): the call returns the
    invalid error, the slot's definition pointer is null again, and
    registers [0..k-1] of the slot keep the descriptors just computed for
    them; nothing is rolled back. *)
Theorem os_process_create_not_rolled_back process_id def os_processes p (k : Z) :
  0 <= process_id < OS_PROCESSES →
  os_processes !! Z.to_nat process_id = Some p →
  definition p = None →
  0 <= k < OS_TASK_MPU_REGIONS →
  (Z.to_nat k < length (mpu p))%nat →
  (∀ j, 0 <= j < k → (region_descriptor def p j).1 = E_OK) →
  (region_descriptor def p k).1 ≠ E_OK →
  ∃ p', os_process_create process_id def os_processes
        = (E_INVALID, <[Z.to_nat process_id := p']> os_processes)
    ∧ <[Z.to_nat process_id := p']> os_processes !! Z.to_nat process_id = Some p'
    ∧ definition p' = None
    ∧ ∀ j, 0 <= j < k → mpu p' !! Z.to_nat j = Some (region_descriptor def p j).2.
Proof.
  intros Hid Hp Hdef Hk Hlen Hok Hbad. unfold os_process_create.
  destruct (Z.leb_spec OS_PROCESSES process_id); [lia|].
  rewrite (list_lookup_total_correct _ _ _ Hp), Hdef.
  destruct (os_process_create_regions_fail k def (Z.to_nat OS_TASK_MPU_REGIONS)
              0 (set_definition (Some def) p))
    as (p' & -> & Hdef' & _ & Hnew & _); try (cbn; lia); auto.
  exists p'. split; [reflexivity|]. split; [|split; auto].
  apply list_lookup_insert_eq. by eapply lookup_lt_Some.
Qed.
End process_create.

Lemma os_process_create_rejects_witness :
  os_process_create (H := demo_mpu) 8 (demo_definition 64) (replicate 8 demo_slot)
  = (E_OUT_OF_RANGE, replicate 8 demo_slot) ∧
  os_process_create (H := demo_mpu) 2 (demo_definition 64)
    (<[2%nat := set_definition (Some (demo_definition 64)) demo_slot]> (replicate 8 demo_slot))
  = (E_INVALID,
     <[2%nat := set_definition (Some (demo_definition 64)) demo_slot]> (replicate 8 demo_slot)).
Proof.
  split.
  - apply (proj1 (os_process_create_rejects (H := demo_mpu) 8 _ _)).
    unfold OS_PROCESSES; lia.
  - apply (proj2 (os_process_create_rejects (H := demo_mpu) 2 _ _)
             (set_definition (Some (demo_definition 64)) demo_slot)).
    + unfold OS_PROCESSES; lia.
    + reflexivity.
    + discriminate.
Defined.

Lemma os_process_create_not_rolled_back_witness :
  ∃ p', os_process_create (H := demo_mpu) 3 (demo_definition 8) (replicate 8 demo_slot)
        = (E_INVALID, <[3%nat := p']> (replicate 8 demo_slot))
    ∧ <[3%nat := p']> (replicate 8 demo_slot) !! 3%nat = Some p'
    ∧ definition p' = None
    ∧ ∀ j, 0 <= j < 2 →
        mpu p' !! Z.to_nat j
        = Some (region_descriptor (H := demo_mpu) (demo_definition 8) demo_slot j).2.
Proof.
  apply (os_process_create_not_rolled_back (H := demo_mpu) 3 (demo_definition 8)
           (replicate 8 demo_slot) demo_slot 2).
  - unfold OS_PROCESSES; lia.
  - reflexivity.
  - reflexivity.
  - unfold OS_TASK_MPU_REGIONS; lia.
  - cbn; lia.
  - intros j Hj. assert (j = 0 ∨ j = 1) as [-> | ->] by lia; reflexivity.
  - discriminate.
Defined.

(** ** Cross-process calls *)

Lemma mpu_load_hosted (state hw : list MPU_Registers) (count : Z) :
  (Z.to_nat count <= length state)%nat →
  take (Z.to_nat count) (mpu_load state 0 count hw) = take (Z.to_nat count) state.
Proof.
  intros Hlen. unfold mpu_load. change (Z.to_nat 0) with 0%nat.
  rewrite take_0, app_nil_l.
  rewrite take_app_le by (rewrite length_take_le; lia).
  rewrite take_take. f_equal. lia.
Qed.

Section rpc.
Context `{Cortex} `{Rpc_externs}.

(** A push on a stack at capacity fails. *)
Lemma rpc_stack_push_full (process_id : Z) (stack : list Z) :
  (RPC_STACK_DEPTH <= length stack)%nat → rpc_stack_push process_id stack = None.
Proof.
  intros Hfull. unfold rpc_stack_push.
  destruct (Nat.ltb_spec (length stack) RPC_STACK_DEPTH); [lia | reflexivity].
Qed.

(** Below capacity it succeeds: nesting up to the configured depth. *)
Lemma rpc_stack_push_room (process_id : Z) (stack : list Z) :
  (length stack < RPC_STACK_DEPTH)%nat →
  rpc_stack_push process_id stack = Some (process_id :: stack).
Proof.
  intros Hroom. unfold rpc_stack_push.
  destruct (Nat.ltb_spec (length stack) RPC_STACK_DEPTH); [reflexivity | lia].
Qed.

(** C4: for a call that passes the stack-pointer check, let [process_id]
    be what the resolver makes of the service's method table.  If it is
    the unknown sentinel, [os_rpc_call] returns the invalid-address error;
    if it is a process and the thread's call stack is at capacity, it
    returns the call-too-deep error.  Both times the kernel state handed
    back is the one before the call: call stack, active mapping, stack
    pointer and the memory of the activation records. *)
Theorem os_rpc_call_failures (arg0 arg1 arg2 arg3 : Z) (k : kernel) :
  sanitize_psp (PSP k) = true →
  let service := get_exception_argument (ram k) (PSP k) 4 in
  let process_id := get_vtable_process (os_processes k) (load32 (ram k) service) in
  (process_id = E_VTABLE_UNKNOWN →
   os_rpc_call arg0 arg1 arg2 arg3 k = Returned E_INVALID_ADDRESS k) ∧
  (process_id ≠ E_VTABLE_UNKNOWN →
   (RPC_STACK_DEPTH <= length (rpc_stack k))%nat →
   os_rpc_call arg0 arg1 arg2 arg3 k = Returned E_IN_TOO_DEEP k).
Proof.
  intros Hpsp service process_id. unfold os_rpc_call. rewrite Hpsp. cbn [negb].
  fold service. fold process_id. split.
  - intros ->. reflexivity.
  - intros Hknown Hfull.
    destruct (Z.eqb_spec process_id E_VTABLE_UNKNOWN); [contradiction|].
    by rewrite rpc_stack_push_full.
Qed.

(** C5: for a return that passes the stack-pointer check, let [stack] be
    the thread's call stack with its top entry popped.  The process whose
    mapping is loaded is the new top of [stack] when [stack] is not empty
    and the thread's owning process otherwise; if that process is the
    unknown sentinel the kernel halts and no result code is returned. *)
Theorem os_rpc_return_mapping (arg0 arg1 arg2 arg3 : Z) (k : kernel) :
  sanitize_psp (PSP k) = true →
  let stack := tail (rpc_stack k) in
  let process_id := resumed_process stack k in
  (process_id = E_VTABLE_UNKNOWN → os_rpc_return arg0 arg1 arg2 arg3 k = Halted) ∧
  (process_id ≠ E_VTABLE_UNKNOWN →
   ∃ k', os_rpc_return arg0 arg1 arg2 arg3 k = Returned (sint32 arg0) k'
     ∧ rpc_stack k' = stack
     ∧ mpu_hw k'
       = mpu_load (mpu (os_processes k !!! Z.to_nat process_id)) 0
           MPU_HOSTED_STATE_SIZE (mpu_hw k)).
Proof.
  intros Hpsp stack process_id. unfold os_rpc_return. rewrite Hpsp. cbn [negb].
  unfold rpc_stack_pop. fold stack.
  assert ((if 0 <? Z.of_nat (length stack) then rpc_stack_top stack
           else os_get_current_process k) = process_id) as ->.
  { subst process_id. destruct stack; reflexivity. }
  split.
  - intros ->. reflexivity.
  - intros Hknown.
    destruct (Z.eqb_spec process_id E_VTABLE_UNKNOWN); [contradiction|].
    eexists. split; [reflexivity|]. split; reflexivity.
Qed.
End rpc.

Lemma os_rpc_call_failures_witness :
  os_rpc_call (H := demo_cortex) (H0 := demo_rpc) 1 2 3 4 (demo_kernel 0x1234 [])
  = Returned E_INVALID_ADDRESS (demo_kernel 0x1234 []) ∧
  os_rpc_call (H := demo_cortex) (H0 := demo_rpc) 1 2 3 4 (demo_kernel 0x08001100 [1; 1])
  = Returned E_IN_TOO_DEEP (demo_kernel 0x08001100 [1; 1]).
Proof.
  split.
  - apply (proj1 (os_rpc_call_failures (H := demo_cortex) (H0 := demo_rpc)
                    1 2 3 4 (demo_kernel 0x1234 []) eq_refl)).
    reflexivity.
  - apply (proj2 (os_rpc_call_failures (H := demo_cortex) (H0 := demo_rpc)
                    1 2 3 4 (demo_kernel 0x08001100 [1; 1]) eq_refl)).
    + vm_compute; congruence.
    + cbn. lia.
Defined.

Lemma os_rpc_return_mapping_witness :
  os_rpc_return (H := demo_cortex) 7 0 0 0 (demo_kernel 0 [1; 0xFF]) = Halted ∧
  ∃ k', os_rpc_return (H := demo_cortex) 7 0 0 0 (demo_kernel 0 [1]) = Returned 7 k'
    ∧ rpc_stack k' = []
    ∧ mpu_hw k'
      = mpu_load (mpu (os_processes (demo_kernel 0 [1]) !!! 0%nat)) 0
          MPU_HOSTED_STATE_SIZE (mpu_hw (demo_kernel 0 [1])).
Proof.
  split.
  - apply (proj1 (os_rpc_return_mapping (H := demo_cortex) 7 0 0 0
                    (demo_kernel 0 [1; 0xFF]) eq_refl)).
    reflexivity.
  - apply (proj2 (os_rpc_return_mapping (H := demo_cortex) 7 0 0 0
                    (demo_kernel 0 [1]) eq_refl)).
    vm_compute; congruence.
Defined.

(** ** Thread bootstrap *)

Lemma load32_store32 (mem : memory) (a b v : Z) :
  load32 (store32 mem a v) b
  = if decide (uint32 a = uint32 b) then v else load32 mem b.
Proof.
  unfold load32, store32. destruct (decide (uint32 a = uint32 b)) as [-> | Hne].
  - apply fn_lookup_insert.
  - by apply fn_lookup_insert_ne.
Qed.

(** Pointer arithmetic wraps: only the sum modulo 2^32 matters. *)
Lemma uint32_word_at (base i c : Z) :
  uint32 (word_at base i + c) = uint32 (base + 4 * i + c).
Proof.
  unfold word_at, uint32.
  rewrite Zplus_mod_idemp_l.
  rewrite <- (Zplus_mod_idemp_l (base + 4 * (i mod 2 ^ 32))).
  rewrite <- (Zplus_mod_idemp_r (4 * (i mod 2 ^ 32))).
  rewrite Zmult_mod_idemp_r.
  rewrite Zplus_mod_idemp_r, Zplus_mod_idemp_l. reflexivity.
Qed.

(** Two addresses less than 2^32 bytes apart are different words. *)
Lemma uint32_apart (x c d : Z) :
  c ≠ d → -2 ^ 32 < c - d < 2 ^ 32 → uint32 (x + c) ≠ uint32 (x + d).
Proof.
  unfold uint32. intros Hne Hlt Heq.
  assert (((x + c) - (x + d)) mod 2 ^ 32 = 0) as Hz.
  { rewrite Zminus_mod, Heq, Z.sub_diag. reflexivity. }
  replace (x + c - (x + d)) with (c - d) in Hz by lia.
  apply Z.mod_divide in Hz; [|lia]. destruct Hz as [q Hq]. nia.
Qed.

(** C8: for every stack, stack size, entrypoint and data value,
    [os_thread_populate_stack] leaves [data] in the first-argument (R0)
    slot, the dispose continuation in the link-register slot, [entrypoint]
    in the program-counter slot and, in the status-register slot, the
    Thumb bit and nothing else.  The stack pointer it returns lies eight
    words (the software-saved registers) below the frame the processor
    unstacks on first resumption, which therefore starts [entrypoint] with
    [data] as first argument and the dispose continuation as return
    address. *)
Theorem os_thread_populate_stack_layout `{Runtime}
    (stack_id stack_size entrypoint data : Z) (mem : memory) :
  let stack := os_stack_get stack_id in
  let sp := (os_thread_populate_stack stack_id stack_size entrypoint data mem).1 in
  let mem' := (os_thread_populate_stack stack_id stack_size entrypoint data mem).2 in
  (load32 mem' (word_at stack (stack_size - 8)) = data
   ∧ load32 mem' (word_at stack (stack_size - 3)) = os_thread_dispose
   ∧ load32 mem' (word_at stack (stack_size - 2)) = entrypoint
   ∧ load32 mem' (word_at stack (stack_size - 1)) = XPSR_T)
  ∧ (∀ i, Z.testbit XPSR_T i = (i =? 24))
  ∧ sp = word_at stack (stack_size - 16)
  ∧ r0 (exception_frame_at mem' (sp + 4 * 8)) = data
  ∧ lr (exception_frame_at mem' (sp + 4 * 8)) = os_thread_dispose
  ∧ pc_reg (exception_frame_at mem' (sp + 4 * 8)) = entrypoint
  ∧ xpsr (exception_frame_at mem' (sp + 4 * 8)) = XPSR_T.
Proof.
  intros stack sp mem'. subst sp mem'. unfold os_thread_populate_stack.
  fold stack. cbn [fst snd exception_frame_at r0 lr pc_reg xpsr].
  assert (∀ a b : Z, a ≠ b → -2 ^ 30 < a - b < 2 ^ 30 →
            uint32 (word_at stack (stack_size - a)) ≠ uint32 (word_at stack (stack_size - b)))
    as Hapart.
  { intros a b Hab Hlt.
    rewrite <- (Z.add_0_r (word_at stack (stack_size - a))).
    rewrite <- (Z.add_0_r (word_at stack (stack_size - b))).
    rewrite !uint32_word_at.
    replace (stack + 4 * (stack_size - a) + 0) with (stack + 4 * stack_size + (- (4 * a))) by lia.
    replace (stack + 4 * (stack_size - b) + 0) with (stack + 4 * stack_size + (- (4 * b))) by lia.
    apply uint32_apart; lia. }
  assert (∀ a c : Z, c = 4 * (16 - a) - 32 →
            uint32 (word_at stack (stack_size - 16) + 4 * 8 + c)
            = uint32 (word_at stack (stack_size - a))) as Hframe.
  { intros a c ->.
    rewrite <- (Z.add_0_r (word_at stack (stack_size - a))).
    rewrite <- Z.add_assoc, !uint32_word_at. f_equal. lia. }
  assert (XPSR_T = 0x01000000) as HT by reflexivity.
  assert (∀ mem0 a b v, uint32 a = uint32 b → load32 (store32 mem0 a v) b = v) as Hhit.
  { intros mem0 a b v Hab. rewrite load32_store32. by destruct (decide _). }
  assert (∀ mem0 a b v, uint32 a ≠ uint32 b →
            load32 (store32 mem0 a v) b = load32 mem0 b) as Hmiss.
  { intros mem0 a b v Hab. rewrite load32_store32. by destruct (decide _). }
  split; [repeat split|split; [|split; [reflexivity|repeat split]]].
  - rewrite !Hmiss by (apply Hapart; lia). by apply Hhit.
  - rewrite !Hmiss by (apply Hapart; lia). by apply Hhit.
  - rewrite !Hmiss by (apply Hapart; lia). by apply Hhit.
  - rewrite HT. by apply Hhit.
  - intros i. unfold XPSR_T. rewrite Z.shiftl_1_l.
    rewrite Z.pow2_bits_eqb by lia. apply Z.eqb_sym.
  - rewrite <- (Z.add_0_r (_ + 4 * 8)).
    rewrite !Hmiss by (rewrite (Hframe 8) by lia; apply Hapart; lia).
    apply Hhit. symmetry. apply Hframe. lia.
  - rewrite !Hmiss by (rewrite (Hframe 3) by lia; apply Hapart; lia).
    apply Hhit. symmetry. apply Hframe. lia.
  - rewrite !Hmiss by (rewrite (Hframe 2) by lia; apply Hapart; lia).
    apply Hhit. symmetry. apply Hframe. lia.
  - rewrite HT. apply Hhit. symmetry. apply Hframe. lia.
Qed.

(** ** Binary lock under preemption: mutual exclusion *)

Lemma inv_boot : inv boot.
Proof.
  split; cbn; try discriminate.
  - intros t [? | [? | ?]]; discriminate.
  - intros t. split; [discriminate | exact I].
  - intros t1 t2 [? | [? | ?]]; discriminate.
  - by left.
Qed.

Lemma is_tid_spec (t : Z) : is_tid t = true → t ≠ 0xFF.
Proof. unfold is_tid. intros [? ?%Z.ltb_lt]%andb_true_iff. lia. Qed.

Lemma reserved_spec (t : Z) (s : system) :
  reserved t s = true → monitor s = Some t.
Proof.
  unfold reserved. destruct (monitor s) as [r|]; [|discriminate].
  intros ->%Z.eqb_eq. reflexivity.
Qed.

Lemma threads_goto (t t' : Z) (p : pc) (s : system) :
  threads (goto t p s) t'
  = if decide (t = t') then {| at_pc := p; holds := holds (threads s t) |}
    else threads s t'.
Proof. reflexivity. Qed.

(** A busy thread determines the owner byte: 0xFF while it is about to
    write its identity, its identity afterwards. *)
Lemma inv_owner (s : system) (t : Z) :
  inv s → is_tid t = true → owner (mutex s) = t →
  at_pc (threads s t) ≠ Unlock_set_owner →
  holds (threads s t) = true.
Proof.
  intros [Htid Hphase Huniq Hfree _] Ht Ho Hpc.
  apply is_tid_spec in Ht.
  destruct Hfree as [[_ Hff] | [t0 Hbusy]]; [congruence|].
  destruct (Hphase t0) as [Hheld Hat].
  destruct Hbusy as [Hh | [Hl | Hu]].
  - destruct (Hheld Hh) as [_ <-]. rewrite <- Ho. exact Hh.
  - rewrite Hl in Hat. destruct Hat as (_ & _ & ?). congruence.
  - rewrite Hu in Hat. destruct Hat as (_ & _ & ?). congruence.
Qed.

(** Steps that neither take nor hand over the lock: the thread moves on
    and the monitor may change; the lock object does not. *)
Lemma inv_quiet (s : system) (t : Z) (p : pc) (r : option Z) :
  inv s →
  ¬ handing_over (at_pc (threads s t)) → ¬ handing_over p →
  (p = Unlock_retry_ldrex ∨ p = Unlock_retry_strex → holds (threads s t) = true) →
  (r = Some t →
   reservation_ok (mutex s) {| at_pc := p; holds := holds (threads s t) |}) →
  (∀ t', t' ≠ t → r = Some t' → monitor s = Some t') →
  inv (goto t p (set_monitor r s)).
Proof.
  intros [Htid Hphase Huniq Hfree Hmon] Hold Hnew Hretry Hres Hother.
  assert (∀ t', busy (threads (goto t p (set_monitor r s)) t') ↔ busy (threads s t'))
    as Hbusy.
  { intros t'. rewrite threads_goto. cbn. destruct (decide (t = t')) as [<- | _]; [|done].
    unfold busy; cbn. tauto. }
  split.
  - intros t' Hb. apply Htid, Hbusy, Hb.
  - intros t'. rewrite threads_goto. cbn [mutex goto set_monitor].
    destruct (decide (t = t')) as [<- | _]; [|apply Hphase].
    destruct (Hphase t) as [Hheld _]. split; [exact Hheld|]. cbn.
    unfold handing_over in Hnew. destruct p; tauto.
  - intros t1 t2 H1%Hbusy H2%Hbusy. by apply Huniq.
  - destruct Hfree as [? | [t0 ?]]; [by left | right]. exists t0. by apply Hbusy.
  - intros t'. rewrite threads_goto. cbn [mutex monitor goto set_monitor].
    destruct (decide (t = t')) as [<- | Hne]; [exact Hres|].
    intros Hr. apply Hmon, Hother; auto.
Qed.

Lemma threads_set_holds_goto (t t' : Z) (p : pc) (b : bool) (s : system) :
  threads (set_holds t b (goto t p s)) t'
  = if decide (t = t') then {| at_pc := p; holds := b |} else threads s t'.
Proof.
  cbn. unfold insert, fn_insert.
  destruct (decide (t = t')); [|reflexivity].
  by destruct (decide (t = t)).
Qed.

(** No thread is busy while the lock is free. *)
Lemma inv_free_idle (s : system) (t : Z) :
  inv s → state (mutex s) = 0 → owner (mutex s) = 0xFF → ¬ busy (threads s t).
Proof.
  intros [Htid Hphase _ _ _] Hs Ho Hbusy.
  pose proof (is_tid_spec t (Htid t Hbusy)) as Ht.
  destruct (Hphase t) as [Hheld Hat].
  destruct Hbusy as [Hh | [Hl | Hu]].
  - destruct (Hheld Hh). congruence.
  - rewrite Hl in Hat. destruct Hat as (_ & ? & _). congruence.
  - rewrite Hu in Hat. destruct Hat as (_ & _ & ?). congruence.
Qed.

(** The store-exclusive of [mutex_lock] goes through. *)
Lemma inv_take (s : system) (t : Z) :
  inv s → is_tid t = true →
  at_pc (threads s t) = Lock_strex → monitor s = Some t →
  inv (goto t Lock_set_owner (set_monitor None (set_mutex (set_state 1 (mutex s)) s))).
Proof.
  intros Hinv Ht Hpc Hr.
  pose proof (inv_monitor s Hinv t Hr) as Hres.
  unfold reservation_ok in Hres. rewrite Hpc in Hres. destruct Hres as [Hs Ho].
  pose proof (λ t', inv_free_idle s t' Hinv Hs Ho) as Hidle.
  assert (∀ t', busy (threads (goto t Lock_set_owner
             (set_monitor None (set_mutex (set_state 1 (mutex s)) s))) t') → t' = t)
    as Honly.
  { intros t'. rewrite threads_goto. cbn.
    destruct (decide (t = t')) as [<- | _]; [done|]. intros Hb. by destruct (Hidle t'). }
  split.
  - intros t' ->%Honly. exact Ht.
  - intros t'. rewrite threads_goto. cbn.
    destruct (decide (t = t')) as [<- | _].
    + assert (holds (threads s t) = false) as Hh.
      { destruct (holds (threads s t)) eqn:Hh; [|done].
        destruct (Hidle t). by left. }
      split; cbn; [congruence | done].
    + pose proof (Hidle t') as Hi. destruct (inv_phase s Hinv t') as [_ Hat].
      split.
      * intros Hh. destruct Hi. by left.
      * destruct (at_pc (threads s t')) eqn:Hpc'; try done;
          destruct Hi; unfold busy, handing_over; rewrite Hpc'; auto.
  - intros t1 t2 ->%Honly ->%Honly. reflexivity.
  - right. exists t. rewrite threads_goto.
    destruct (decide (t = t)); [|done]. right; by left.
  - cbn. discriminate.
Qed.

(** [mutex_lock] writes the owner byte and returns. *)
Lemma inv_taken (s : system) (t : Z) :
  inv s → is_tid t = true → at_pc (threads s t) = Lock_set_owner →
  inv (set_holds t true (goto t Out (set_mutex (set_owner t (mutex s)) s))).
Proof.
  intros Hinv Ht Hpc.
  destruct (inv_phase s Hinv t) as [_ Hat]. rewrite Hpc in Hat.
  destruct Hat as (Hh & Hs & Ho).
  assert (busy (threads s t)) as Hbt by (right; left; exact Hpc).
  assert (∀ t', t' ≠ t → ¬ busy (threads s t')) as Hidle.
  { intros t' Hne Hb. apply Hne. by apply (inv_unique s Hinv). }
  assert (∀ t', busy (threads (set_holds t true (goto t Out
             (set_mutex (set_owner t (mutex s)) s))) t') → t' = t) as Honly.
  { intros t'. rewrite threads_set_holds_goto. cbn.
    destruct (decide (t = t')) as [<- | Hne]; [done|]. intros Hb.
    by destruct (Hidle t'). }
  split.
  - intros t' ->%Honly. exact Ht.
  - intros t'. rewrite threads_set_holds_goto. cbn.
    destruct (decide (t = t')) as [<- | Hne]; [done|].
    pose proof (Hidle t' (not_eq_sym Hne)) as Hi.
    destruct (inv_phase s Hinv t') as [_ Hat]. split.
    + intros Hh'. destruct Hi. by left.
    + destruct (at_pc (threads s t')) eqn:Hpc'; try done;
        destruct Hi; unfold busy, handing_over; rewrite Hpc'; auto.
  - intros t1 t2 ->%Honly ->%Honly. reflexivity.
  - right. exists t. rewrite threads_set_holds_goto.
    destruct (decide (t = t)); [|done]. by left.
  - intros t' Hr. rewrite threads_set_holds_goto.
    cbn in Hr. pose proof (inv_monitor s Hinv t' Hr) as Hres.
    cbn [mutex set_holds goto set_mutex].
    destruct (decide (t = t')) as [<- | Hne]; [done|].
    revert Hres. unfold reservation_ok. cbn.
    destruct (at_pc (threads s t')); try done. intros [? _]. congruence.
Qed.

(** A thread that is not busy stays in step with any lock object as long
    as it is not mistaken for the holder. *)
Lemma phase_ok_idle (m m' : mutex_t) (t : Z) (th : thread) :
  ¬ busy th → phase_ok m t th → phase_ok m' t th.
Proof.
  intros Hidle [_ Hat]. split.
  - intros Hh. destruct Hidle. by left.
  - destruct (at_pc th) eqn:Hpc; try done;
      destruct Hidle; right; unfold handing_over; rewrite Hpc; auto.
Qed.

(** The store-exclusive of [mutex_unlock] goes through. *)
Lemma inv_release (s : system) (t : Z) :
  inv s → is_tid t = true → at_pc (threads s t) = Unlock_retry_strex →
  inv (set_holds t false
         (goto t Unlock_set_owner
            (set_monitor None (set_mutex (set_state 0 (mutex s)) s)))).
Proof.
  intros Hinv Ht Hpc.
  destruct (inv_phase s Hinv t) as [Hheld Hat]. rewrite Hpc in Hat.
  destruct (Hheld Hat) as [Hs Ho].
  assert (∀ t', t' ≠ t → ¬ busy (threads s t')) as Hidle.
  { intros t' Hne Hb. apply Hne. apply (inv_unique s Hinv); [done | by left]. }
  assert (∀ t', busy (threads (set_holds t false (goto t Unlock_set_owner
             (set_monitor None (set_mutex (set_state 0 (mutex s)) s)))) t') → t' = t)
    as Honly.
  { intros t'. rewrite threads_set_holds_goto. cbn.
    destruct (decide (t = t')) as [<- | Hne]; [done|]. intros Hb.
    by destruct (Hidle t'). }
  split.
  - intros t' ->%Honly. exact Ht.
  - intros t'. rewrite threads_set_holds_goto. cbn.
    destruct (decide (t = t')) as [<- | Hne]; [done|].
    eapply phase_ok_idle; [|apply (inv_phase s Hinv)]. apply Hidle. congruence.
  - intros t1 t2 ->%Honly ->%Honly. reflexivity.
  - right. exists t. rewrite threads_set_holds_goto.
    destruct (decide (t = t)); [|done]. right; by right.
  - cbn. discriminate.
Qed.

(** [mutex_unlock] hands the owner byte back and returns. *)
Lemma inv_released (s : system) (t : Z) :
  inv s → at_pc (threads s t) = Unlock_set_owner →
  inv (goto t Out (set_mutex (set_owner 0xFF (mutex s)) s)).
Proof.
  intros Hinv Hpc.
  destruct (inv_phase s Hinv t) as [_ Hat]. rewrite Hpc in Hat.
  destruct Hat as (Hh & Hs & Ho).
  assert (∀ t', t' ≠ t → ¬ busy (threads s t')) as Hidle.
  { intros t' Hne Hb. apply Hne. apply (inv_unique s Hinv); [done|].
    right; right; exact Hpc. }
  assert (∀ t', ¬ busy (threads (goto t Out
             (set_mutex (set_owner 0xFF (mutex s)) s)) t')) as Hnone.
  { intros t'. rewrite threads_goto. cbn.
    destruct (decide (t = t')) as [<- | Hne]; [|apply Hidle; congruence].
    rewrite Hh. intros [? | [? | ?]]; discriminate. }
  split.
  - intros t' Hb. by destruct (Hnone t').
  - intros t'. rewrite threads_goto. cbn.
    destruct (decide (t = t')) as [<- | Hne].
    + rewrite Hh. split; [discriminate | exact I].
    + eapply phase_ok_idle; [|apply (inv_phase s Hinv)]. apply Hidle. congruence.
  - intros t1 t2 Hb. by destruct (Hnone t1).
  - left. split; [exact Hs | reflexivity].
  - intros t' Hr. rewrite threads_goto. cbn in Hr.
    pose proof (inv_monitor s Hinv t' Hr) as Hres.
    cbn [mutex goto set_mutex].
    destruct (decide (t = t')) as [<- | Hne]; [done|].
    revert Hres. unfold reservation_ok. cbn.
    destruct (at_pc (threads s t')); done.
Qed.

Ltac not_handing_over :=
  let H := fresh in
  intros [H | H]; first [discriminate H | congruence].

(** After the owner test of [mutex_lock] has let the thread through, a
    reservation still in place means the lock is free. *)
Lemma lock_test_reservation (s : system) (t tmp_state : Z) :
  inv s → is_tid t = true → monitor s = Some t →
  at_pc (threads s t) = Lock_owner_tid tmp_state
  ∨ at_pc (threads s t) = Lock_owner_ff tmp_state →
  owner (mutex s) = t ∨ owner (mutex s) = 0xFF →
  reservation_ok (mutex s)
    {| at_pc := lock_test tmp_state; holds := holds (threads s t) |}.
Proof.
  intros Hinv Htid Hr Hpc Ho.
  pose proof (inv_monitor s Hinv t Hr) as Hres. unfold reservation_ok in Hres.
  assert (tmp_state = state (mutex s)) as -> by (destruct Hpc as [Hpc | Hpc]; by rewrite Hpc in Hres).
  unfold reservation_ok, lock_test. cbn.
  destruct (Z.eqb_spec (state (mutex s)) 0) as [Hs | _]; [|exact I]. cbn.
  split; [exact Hs|]. destruct Ho as [Ho | Ho]; [|exact Ho].
  assert (holds (threads s t) = true) as Hh.
  { apply inv_owner; auto. destruct Hpc as [Hpc | Hpc]; rewrite Hpc; discriminate. }
  destruct (inv_phase s Hinv t) as [Hheld _]. destruct (Hheld Hh). congruence.
Qed.

Lemma lock_test_quiet (tmp_state : Z) : ¬ handing_over (lock_test tmp_state).
Proof. unfold lock_test. destruct (tmp_state =? 0); not_handing_over. Qed.

Lemma lock_test_not_retry (tmp_state : Z) :
  lock_test tmp_state = Unlock_retry_ldrex ∨ lock_test tmp_state = Unlock_retry_strex
  → False.
Proof. unfold lock_test. destruct (tmp_state =? 0); intros [? | ?]; discriminate. Qed.

Lemma inv_step (e : event) (s s' : system) :
  inv s → step e s = Some s' → inv s'.
Proof.
  intros Hinv Hstep.
  destruct e as [t | t | t spurious]; cbn in Hstep;
    (destruct (is_tid t) eqn:Htid; [|discriminate]).
  - destruct (at_pc (threads s t)) eqn:Hpc; try discriminate.
    injection Hstep as <-.
    apply (inv_quiet s t Lock_ldrex (monitor s)); auto;
      try not_handing_over; done.
  - destruct (at_pc (threads s t)) eqn:Hpc; try discriminate.
    injection Hstep as <-.
    apply (inv_quiet s t Unlock_ldrex (monitor s)); auto;
      try not_handing_over; done.
  - unfold access in Hstep.
    destruct (inv_phase s Hinv t) as [Hheld Hat].
    destruct (at_pc (threads s t)) eqn:Hpc; try discriminate.
    + (* Lock_ldrex *)
      injection Hstep as <-.
      apply (inv_quiet s t (Lock_owner_tid (state (mutex s))) (Some t)); auto;
        try not_handing_over; try done.
      intros t' Hne [= ->]. done.
    + (* Lock_owner_tid *)
      destruct (Z.eqb_spec (owner (mutex s)) t) as [Ho | Ho];
        injection Hstep as <-.
      * apply (inv_quiet s t (lock_test tmp_state) (monitor s)); auto;
          try not_handing_over.
        -- apply lock_test_quiet.
        -- intros []%lock_test_not_retry.
        -- intros Hr. apply lock_test_reservation; auto.
      * apply (inv_quiet s t (Lock_owner_ff tmp_state) (monitor s)); auto;
          try not_handing_over; try done.
        intros Hr. pose proof (inv_monitor s Hinv t Hr) as Hres.
        unfold reservation_ok in *. by rewrite Hpc in Hres.
    + (* Lock_owner_ff *)
      destruct (Z.eqb_spec (owner (mutex s)) 255) as [Ho | Ho];
        injection Hstep as <-.
      * apply (inv_quiet s t (lock_test tmp_state) (monitor s)); auto;
          try not_handing_over.
        -- apply lock_test_quiet.
        -- intros []%lock_test_not_retry.
        -- intros Hr. apply lock_test_reservation; auto.
      * apply (inv_quiet s t Lock_yield (monitor s)); auto;
          try not_handing_over; done.
    + (* Lock_yield *)
      injection Hstep as <-.
      apply (inv_quiet s t Lock_ldrex (monitor s)); auto;
        try not_handing_over; done.
    + (* Lock_strex *)
      destruct (reserved t s && negb spurious) eqn:Hok; injection Hstep as <-.
      * apply andb_true_iff in Hok as [Hr%reserved_spec _]. by apply inv_take.
      * apply (inv_quiet s t Lock_yield None); auto;
          try not_handing_over; done.
    + (* Lock_set_owner *)
      injection Hstep as <-. by apply inv_taken.
    + (* Unlock_ldrex *)
      injection Hstep as <-.
      apply (inv_quiet s t (Unlock_owner (state (mutex s))) (Some t)); auto;
        try not_handing_over; try done.
      intros t' Hne [= ->]. done.
    + (* Unlock_owner *)
      destruct (Z.eqb_spec (owner (mutex s)) t) as [Ho | Ho];
        [destruct (tmp_state =? 0)|]; injection Hstep as <-.
      * apply (inv_quiet s t Out None); auto; try not_handing_over; done.
      * apply (inv_quiet s t Unlock_retry_ldrex (monitor s)); auto;
          try not_handing_over; try done.
        intros _. apply inv_owner; auto. rewrite Hpc. discriminate.
      * apply (inv_quiet s t Out None); auto; try not_handing_over; done.
    + (* Unlock_retry_ldrex *)
      injection Hstep as <-.
      apply (inv_quiet s t Unlock_retry_strex (Some t)); auto;
        try not_handing_over; try done.
      intros t' Hne [= ->]. done.
    + (* Unlock_retry_strex *)
      destruct (reserved t s && negb spurious) eqn:Hok; injection Hstep as <-.
      * by apply inv_release.
      * apply (inv_quiet s t Unlock_retry_ldrex None); auto;
          try not_handing_over; done.
    + (* Unlock_set_owner *)
      injection Hstep as <-. by apply inv_released.
Qed.

Lemma inv_run (tr : list event) : ∀ s s', inv s → run tr s = Some s' → inv s'.
Proof.
  induction tr as [|e tr IH]; intros s s' Hinv Hrun; cbn in Hrun.
  - by injection Hrun as <-.
  - destruct (step e s) as [s1|] eqn:Hstep; [|discriminate].
    eapply IH; [|exact Hrun]. by eapply inv_step.
Qed.

Lemma inv_reachable (s : system) : reachable s → inv s.
Proof. intros [tr Hrun]. eapply inv_run; [apply inv_boot | exact Hrun]. Qed.

(** *** The function and the machine agree *)

Lemma run_app (tr1 tr2 : list event) (s : system) :
  run (tr1 ++ tr2) s = run tr1 s ≫= run tr2.
Proof.
  revert s. induction tr1 as [|e tr1 IH]; intros s; cbn; [reflexivity|].
  destruct (step e s); [apply IH | reflexivity].
Qed.

Lemma at_pc_goto (t : Z) (p : pc) (s : system) :
  at_pc (threads (goto t p s) t) = p.
Proof. rewrite threads_goto. by destruct (decide (t = t)). Qed.

(** The release loop of [mutex_unlock], run by a thread on its own. *)
Lemma solo_unlock_retry (t : Z) (strex : list bool) : ∀ (s : system) (m' : mutex_t),
  is_tid t = true → at_pc (threads s t) = Unlock_retry_ldrex →
  mutex_unlock_retry strex (mutex s) = Some m' →
  ∃ tr s', run tr s = Some s'
    ∧ Forall (λ e, event_thread e = t) tr
    ∧ mutex s' = m' ∧ at_pc (threads s' t) = Unlock_set_owner.
Proof.
  induction strex as [|ok rest IH]; intros s m' Ht Hpc Hrun; [discriminate|].
  cbn in Hrun.
  set (s1 := goto t Unlock_retry_strex (set_monitor (Some t) s)).
  assert (step (Access t false) s = Some s1) as Hs1.
  { cbn. rewrite Ht. unfold access. by rewrite Hpc. }
  assert (reserved t s1 = true) as Hres by (cbn; apply Z.eqb_refl).
  assert (at_pc (threads s1 t) = Unlock_retry_strex) as Hpc1 by apply at_pc_goto.
  destruct ok.
  - injection Hrun as <-.
    eexists [Access t false; Access t false], _. split; [|split; [|split]].
    + cbn [run]. rewrite Hs1. cbn [run step]. rewrite Ht. unfold access.
      rewrite Hpc1, Hres. reflexivity.
    + by repeat constructor.
    + reflexivity.
    + rewrite threads_set_holds_goto. by destruct (decide (t = t)).
  - set (s2 := goto t Unlock_retry_ldrex (set_monitor None s1)).
    destruct (IH s2 m' Ht (at_pc_goto _ _ _) Hrun)
      as (tr & s' & Hrun' & Hby & Hm & Hpc').
    exists (Access t false :: Access t true :: tr), s'.
    split; [|split; [|split]]; [| |exact Hm|exact Hpc'].
    + cbn [run]. rewrite Hs1. cbn [run step]. rewrite Ht. unfold access.
      rewrite Hpc1, Hres. exact Hrun'.
    + by repeat constructor.
Qed.

(** [mutex_unlock] as a function is what the machine does when the calling
    thread runs on its own, with the same store-exclusive outcomes. *)
Lemma solo_unlock (t : Z) (strex : list bool) (s : system) (rv : Z) (m' : mutex_t) :
  is_tid t = true → at_pc (threads s t) = Out →
  mutex_unlock t strex (mutex s) = Some (rv, m') →
  ∃ tr s', run tr s = Some s'
    ∧ Forall (λ e, event_thread e = t) tr
    ∧ mutex s' = m' ∧ at_pc (threads s' t) = Out.
Proof.
  intros Ht Hpc Hrun. unfold mutex_unlock in Hrun.
  assert (uint8 t = t) as Hu.
  { apply uint8_small. unfold is_tid in Ht.
    apply andb_true_iff in Ht as [?%Z.leb_le ?%Z.ltb_lt]. lia. }
  rewrite Hu in Hrun.
  set (s1 := goto t Unlock_ldrex s).
  set (s2 := goto t (Unlock_owner (state (mutex s))) (set_monitor (Some t) s1)).
  assert (run [Call_unlock t; Access t false] s = Some s2) as H12.
  { cbn. rewrite Ht, Hpc. unfold access. by rewrite at_pc_goto. }
  assert (at_pc (threads s2 t) = Unlock_owner (state (mutex s))) as Hpc2
    by apply at_pc_goto.
  assert (∀ s3, step (Access t false) s2 = Some s3 →
            run [Call_unlock t; Access t false; Access t false] s = Some s3) as H3.
  { intros s3 Hs3. change [Call_unlock t; Access t false; Access t false]
      with ([Call_unlock t; Access t false] ++ [Access t false]).
    rewrite run_app, H12. cbn [mbind option_bind run]. by rewrite Hs3. }
  destruct (Z.eqb_spec (owner (mutex s)) t) as [Ho | Ho]; cbn [negb] in Hrun.
  2: { injection Hrun as <- <-. eexists _, _. split; [apply H3|split; [|split]].
       - cbn [step]. rewrite Ht. unfold access. rewrite Hpc2. cbn.
         destruct (Z.eqb_spec (owner (mutex s)) t); [done | reflexivity].
       - by repeat constructor.
       - reflexivity.
       - apply at_pc_goto. }
  destruct (Z.eqb_spec (state (mutex s)) 0) as [Hs | Hs].
  { injection Hrun as <- <-. eexists _, _. split; [apply H3|split; [|split]].
    - cbn [step]. rewrite Ht. unfold access. rewrite Hpc2. cbn.
      destruct (Z.eqb_spec (owner (mutex s)) t); [|done].
      destruct (Z.eqb_spec (state (mutex s)) 0); [reflexivity | done].
    - by repeat constructor.
    - reflexivity.
    - apply at_pc_goto. }
  destruct (mutex_unlock_retry strex (mutex s)) as [m1|] eqn:Hretry; [|discriminate].
  injection Hrun as <- <-.
  set (s3 := goto t Unlock_retry_ldrex s2).
  assert (step (Access t false) s2 = Some s3) as Hs3.
  { cbn [step]. rewrite Ht. unfold access. rewrite Hpc2. cbn.
    destruct (Z.eqb_spec (owner (mutex s)) t); [|done].
    destruct (Z.eqb_spec (state (mutex s)) 0); [done | reflexivity]. }
  destruct (solo_unlock_retry t strex s3 m1 Ht) as (tr & s4 & Hrun4 & Hby & Hm4 & Hpc4);
    [apply at_pc_goto | exact Hretry |].
  exists ([Call_unlock t; Access t false; Access t false] ++ tr ++ [Access t false]).
  eexists. split; [|split; [|split]].
  - rewrite run_app, (H3 s3 Hs3). cbn [mbind option_bind].
    rewrite run_app, Hrun4. cbn [mbind option_bind run step]. rewrite Ht.
    unfold access. rewrite Hpc4. reflexivity.
  - apply Forall_app. split; [by repeat constructor|].
    apply Forall_app. split; [exact Hby | by repeat constructor].
  - cbn. by rewrite Hm4.
  - apply at_pc_goto.
Qed.

(** C9: in every state that an interleaving of [mutex_lock] and
    [mutex_unlock] calls by any threads leads to, a thread inside its
    critical section reads its own identity in the owner byte (and 1 in the
    state byte), and no two threads are inside their critical sections at
    once. *)
Theorem mutex_mutual_exclusion (s : system) :
  reachable s →
  (∀ t, in_critical_section s t →
        owner (mutex s) = t ∧ state (mutex s) = 1) ∧
  (∀ t1 t2, in_critical_section s t1 → in_critical_section s t2 → t1 = t2).
Proof.
  intros Hinv%inv_reachable. split.
  - intros t Hh. destruct (inv_phase s Hinv t) as [Hheld _].
    by destruct (Hheld Hh).
  - intros t1 t2 H1 H2. apply (inv_unique s Hinv); by left.
Qed.

Lemma mutex_mutual_exclusion_witness :
  ∃ s, run demo_trace boot = Some s
    ∧ in_critical_section s 1
    ∧ (owner (mutex s) = 1 ∧ state (mutex s) = 1)
    ∧ ∀ t, in_critical_section s t → t = 1.
Proof.
  eexists. split; [reflexivity|].
  match goal with |- in_critical_section ?s _ ∧ _ =>
    assert (reachable s) as Hreach by (exists demo_trace; reflexivity);
    assert (in_critical_section s 1) as Hin by reflexivity;
    destruct (mutex_mutual_exclusion s Hreach) as [Howner Hone]
  end.
  split; [exact Hin|]. split; [exact (Howner 1 Hin)|].
  intros t Ht. exact (Hone t 1 Ht Hin).
Defined.

(** * Further properties of the lock routines *)

(** ** Recursive lock: taking, releasing, and what goes wrong *)

Lemma futex_lock_retry_free (t : Z) (strex : list bool) (f : futex_t) :
  futex_wf f → owner f = 0xFF ∨ owner f = t → state f = 0 → true ∈ strex →
  futex_lock_retry strex f t = Some (set_state 1 f).
Proof.
  intros Hwf Ho Hs. induction strex as [|ok rest IH]; intros Hin.
  - by apply elem_of_nil in Hin.
  - cbn [futex_lock_retry]. unfold __futex_fast_lock.
    assert ((owner f =? 255) || (owner f =? t) = true) as ->.
    { destruct Ho as [-> | ->]; rewrite ?Z.eqb_refl, ?orb_true_r; reflexivity. }
    rewrite Hs. change (sint32 0 <? sint32 0) with false. cbv iota.
    destruct ok; [reflexivity|]. cbn.
    apply elem_of_cons in Hin as [Hin | Hin]; [discriminate | auto].
Qed.

Lemma futex_lock_retry_blocked (t : Z) (strex : list bool) (f : futex_t) :
  futex_wf f → ¬ ((owner f = 0xFF ∨ owner f = t) ∧ state f = 0) →
  futex_lock_retry strex f t = None.
Proof.
  intros Hwf Hno. induction strex as [|ok rest IH]; [reflexivity|].
  cbn [futex_lock_retry].
  assert (__futex_fast_lock ok f t 0 = (1, f)) as ->.
  { unfold __futex_fast_lock.
    destruct (Z.eqb_spec (owner f) 255) as [Hff | Hff];
      destruct (Z.eqb_spec (owner f) t) as [Ht | Ht]; cbn [orb]; try reflexivity;
      (destruct Hwf as (_ & _ & Hs); rewrite (sint32_small (state f)) by lia;
       change (sint32 0) with 0;
       destruct (Z.ltb_spec 0 (state f)); [reflexivity|];
       destruct Hno; split; [tauto | lia]). }
  exact IH.
Qed.

Lemma futex_lock_retry_all_fail (t : Z) (strex : list bool) (f : futex_t) :
  true ∉ strex → futex_lock_retry strex f t = None.
Proof.
  induction strex as [|ok rest IH]; intros Hnot; [reflexivity|].
  apply not_elem_of_cons in Hnot as [Hok Hrest].
  destruct ok; [done|]. cbn [futex_lock_retry].
  assert (__futex_fast_lock false f t 0 = (1, f)) as ->.
  { unfold __futex_fast_lock.
    destruct ((owner f =? 255) || (owner f =? t)); [|reflexivity].
    by destruct (sint32 0 <? sint32 (state f)). }
  by apply IH.
Qed.

(** What [futex_lock] hands back when it comes back. *)
Lemma futex_lock_result (t : Z) (strex : list bool) (f f' : futex_t) (rv : Z) :
  futex_wf f → futex_lock t strex f = Some (rv, f') →
  rv = 0 ∧ f' = {| owner := uint8 t; flags := flags f; state := 1 |}.
Proof.
  intros Hwf. unfold futex_lock.
  destruct (decide ((owner f = 0xFF ∨ owner f = uint8 t) ∧ state f = 0)) as [[Ho Hs] | Hno].
  - destruct (decide (true ∈ strex)) as [Hin | Hnot].
    + rewrite futex_lock_retry_free by auto. intros [= <- <-]. by destruct f.
    + by rewrite futex_lock_retry_all_fail.
  - by rewrite futex_lock_retry_blocked.
Qed.

(** X1: [futex_lock] by a thread on its own returns exactly when the lock
    is at depth 0, unowned or owned by the caller, and one of its
    store-exclusives goes through; it then returns 0 with depth 1 and the
    caller as owner.  On a lock that is already held, by the caller too, it
    never comes back: the recursive lock is taken with maximum depth 0. *)
Theorem futex_lock_returns (t : Z) (strex : list bool) (f : futex_t) :
  futex_wf f →
  (is_Some (futex_lock t strex f)
   ↔ (owner f = 0xFF ∨ owner f = uint8 t) ∧ state f = 0 ∧ true ∈ strex) ∧
  ∀ rv f', futex_lock t strex f = Some (rv, f') →
    rv = 0 ∧ f' = {| owner := uint8 t; flags := flags f; state := 1 |}.
Proof.
  intros Hwf. unfold futex_lock.
  destruct (decide ((owner f = 0xFF ∨ owner f = uint8 t) ∧ state f = 0)) as [[Ho Hs] | Hno].
  - destruct (decide (true ∈ strex)) as [Hin | Hnot].
    + rewrite futex_lock_retry_free by auto. split.
      * split; [auto | by eexists].
      * intros rv f' [= <- <-]. by destruct f.
    + rewrite futex_lock_retry_all_fail by auto. split.
      * split; [intros [? [=]] | tauto].
      * intros rv f' [=].
  - rewrite futex_lock_retry_blocked by auto. split.
    + split; [intros [? [=]] | tauto].
    + intros rv f' [=].
Qed.

Lemma futex_lock_returns_witness :
  (is_Some (futex_lock 3 [false; true] {| owner := 0xFF; flags := 0; state := 0 |})
   ↔ (255 = 255 ∨ 255 = uint8 3) ∧ 0 = 0 ∧ true ∈ [false; true]) ∧
  ∀ rv f', futex_lock 3 [false; true] {| owner := 0xFF; flags := 0; state := 0 |}
           = Some (rv, f') →
    rv = 0 ∧ f' = {| owner := uint8 3; flags := 0; state := 1 |}.
Proof.
  apply (futex_lock_returns 3 [false; true] {| owner := 0xFF; flags := 0; state := 0 |}).
  repeat split; cbn; lia.
Defined.

(** X2: a recursive lock taken with [futex_lock] and released with
    [futex_unlock] by the same thread is back as it was: depth 0, unowned,
    flags untouched. *)
Theorem futex_lock_unlock (t : Z) (strex : list bool) (f f1 : futex_t) (rv : Z) :
  futex_wf f → unlocked f →
  futex_lock t strex f = Some (rv, f1) →
  futex_unlock t true f1 = (0, f).
Proof.
  intros Hwf [Hs Ho] Hlock.
  destruct (futex_lock_result t strex f f1 rv Hwf Hlock) as [_ ->].
  unfold futex_unlock, __futex_fast_unlock. cbn.
  rewrite Z.eqb_refl. cbn. destruct f; cbn in *; by subst.
Qed.

Lemma futex_lock_unlock_witness :
  futex_unlock 3 true {| owner := 3; flags := 0; state := 1 |}
  = (0, {| owner := 0xFF; flags := 0; state := 0 |}).
Proof.
  apply (futex_lock_unlock 3 [true] {| owner := 0xFF; flags := 0; state := 0 |}
           {| owner := 3; flags := 0; state := 1 |} 0).
  - repeat split; cbn; lia.
  - split; reflexivity.
  - reflexivity.
Defined.

Lemma futex_fast_unlock_not_owner (ok : bool) (f : futex_t) (t : Z) :
  owner f ≠ t → __futex_fast_unlock ok f t = (1, f).
Proof.
  intros Hne. unfold __futex_fast_unlock.
  destruct (state f =? 0); [reflexivity|].
  destruct (Z.eqb_spec (owner f) t); [contradiction | reflexivity].
Qed.

Lemma futex_unlock_not_owner (t : Z) (ok : bool) (f : futex_t) :
  owner f ≠ uint8 t → futex_unlock t ok f = (1, f).
Proof.
  intros Hne. unfold futex_unlock. by rewrite futex_fast_unlock_not_owner.
Qed.

(** X3: [futex_trylock] takes a free recursive lock without recording the
    caller as owner, so the lock is left at depth 1 with the unowned byte
    and is lost: for every thread, the one that took it included,
    [futex_unlock] and [futex_trylock] fail without changing it and
    [futex_lock] never returns. *)
Theorem futex_trylock_never_released (t : Z) (f : futex_t) :
  futex_wf f → unlocked f →
  futex_trylock t true f = (0, set_state 1 f) ∧
  ∀ (t' : Z) (ok : bool) (strex : list bool), uint8 t' ≠ 0xFF →
    futex_unlock t' ok (set_state 1 f) = (1, set_state 1 f)
    ∧ futex_trylock t' ok (set_state 1 f) = (1, set_state 1 f)
    ∧ futex_lock t' strex (set_state 1 f) = None.
Proof.
  intros Hwf [Hs Ho]. split.
  - rewrite futex_trylock_spec by auto. by rewrite Hs.
  - intros t' ok strex Ht'. split; [|split].
    + apply futex_unlock_not_owner. cbn. congruence.
    + unfold futex_trylock, __futex_fast_lock. cbn. rewrite Ho. reflexivity.
    + unfold futex_lock. rewrite futex_lock_retry_blocked; [reflexivity | |].
      * destruct Hwf as (? & ? & ?). repeat split; cbn; lia.
      * cbn. intros [_ [=]].
Qed.

Lemma futex_trylock_never_released_witness :
  futex_trylock 3 true {| owner := 0xFF; flags := 0; state := 0 |}
  = (0, {| owner := 0xFF; flags := 0; state := 1 |}) ∧
  ∀ (t' : Z) (ok : bool) (strex : list bool), uint8 t' ≠ 0xFF →
    futex_unlock t' ok {| owner := 0xFF; flags := 0; state := 1 |}
    = (1, {| owner := 0xFF; flags := 0; state := 1 |})
    ∧ futex_trylock t' ok {| owner := 0xFF; flags := 0; state := 1 |}
      = (1, {| owner := 0xFF; flags := 0; state := 1 |})
    ∧ futex_lock t' strex {| owner := 0xFF; flags := 0; state := 1 |} = None.
Proof.
  apply (futex_trylock_never_released 3 {| owner := 0xFF; flags := 0; state := 0 |}).
  - repeat split; cbn; lia.
  - split; reflexivity.
Defined.

(** X4: [futex_unlock] on a lock at depth at least 1.  The owner, its
    store-exclusive going through, takes one level off and gets 0; the
    owner byte goes back to unowned exactly when the depth reaches 0.  A
    failed store-exclusive and a caller who is not the owner get 1 and
    change nothing. *)
Theorem futex_unlock_levels (t : Z) (f : futex_t) :
  futex_wf f → state f ≠ 0 →
  (owner f = uint8 t →
   futex_unlock t true f
   = (0, if state f =? 1 then {| owner := 0xFF; flags := flags f; state := 0 |}
         else set_state (state f - 1) f)
   ∧ futex_unlock t false f = (1, f)) ∧
  (owner f ≠ uint8 t → ∀ ok, futex_unlock t ok f = (1, f)).
Proof.
  intros (_ & _ & Hs) Hs0. split.
  - intros Ho. unfold futex_unlock, __futex_fast_unlock.
    destruct (Z.eqb_spec (state f) 0); [contradiction|].
    rewrite Ho, Z.eqb_refl. cbn [negb]. split; [|reflexivity].
    rewrite uint8_small by lia. cbn.
    destruct (Z.eqb_spec (state f) 1) as [-> | H1]; [reflexivity|].
    destruct (Z.eqb_spec (state f - 1) 0); [lia | reflexivity].
  - intros Ho ok. by apply futex_unlock_not_owner.
Qed.

Lemma futex_unlock_levels_witness :
  (futex_unlock 3 true {| owner := 3; flags := 0; state := 2 |}
   = (0, {| owner := 3; flags := 0; state := 1 |})
   ∧ futex_unlock 3 false {| owner := 3; flags := 0; state := 2 |}
     = (1, {| owner := 3; flags := 0; state := 2 |})) ∧
  ∀ ok, futex_unlock 4 ok {| owner := 3; flags := 0; state := 2 |}
        = (1, {| owner := 3; flags := 0; state := 2 |}).
Proof.
  split.
  - apply (proj1 (futex_unlock_levels 3 {| owner := 3; flags := 0; state := 2 |}
                    ltac:(repeat split; cbn; lia) ltac:(discriminate))).
    reflexivity.
  - apply (proj2 (futex_unlock_levels 4 {| owner := 3; flags := 0; state := 2 |}
                    ltac:(repeat split; cbn; lia) ltac:(discriminate))).
    discriminate.
Defined.

(** X5: the two assembly primitives undo each other for the owner: a claim
    that succeeds below depth 255 followed by a release gives the lock back
    as it was, and so does a release followed by a claim. *)
Theorem futex_fast_lock_unlock (f : futex_t) (t m : Z) :
  futex_wf f → owner f = t →
  (state f <= sint32 m → state f < 255 →
   __futex_fast_unlock true (__futex_fast_lock true f t m).2 t = (0, f)) ∧
  (state f ≠ 0 → state f - 1 <= sint32 m →
   __futex_fast_lock true (__futex_fast_unlock true f t).2 t m = (0, f)).
Proof.
  intros Hwf Ho. pose proof Hwf as (Hwo & Hwfl & Hws). split.
  - intros Hle Hlt.
    destruct (futex_fast_lock_cases f t m Hwf (or_intror Ho)) as [[_ ->] | [? _]]; [|lia].
    rewrite uint8_small by lia. unfold __futex_fast_unlock. cbn.
    destruct (Z.eqb_spec (state f + 1) 0); [lia|].
    rewrite Ho, Z.eqb_refl. cbn.
    replace (state f + 1 - 1) with (state f) by lia.
    rewrite uint8_small by lia. by destruct f.
  - intros Hs0 Hle. unfold __futex_fast_unlock.
    destruct (Z.eqb_spec (state f) 0); [contradiction|].
    rewrite Ho, Z.eqb_refl. cbn [negb snd].
    rewrite uint8_small by lia.
    destruct (futex_fast_lock_cases (set_state (state f - 1) f) t m)
      as [[_ ->] | [Hlt _]].
    + repeat split; cbn; lia.
    + right. cbn. congruence.
    + cbn. replace (state f - 1 + 1) with (state f) by lia.
      rewrite uint8_small by lia. by destruct f.
    + cbn in Hlt. lia.
Qed.

Lemma futex_fast_lock_unlock_witness :
  __futex_fast_unlock true
    (__futex_fast_lock true {| owner := 3; flags := 0; state := 1 |} 3 4).2 3
  = (0, {| owner := 3; flags := 0; state := 1 |}) ∧
  __futex_fast_lock true
    (__futex_fast_unlock true {| owner := 3; flags := 0; state := 1 |} 3).2 3 4
  = (0, {| owner := 3; flags := 0; state := 1 |}).
Proof.
  destruct (futex_fast_lock_unlock {| owner := 3; flags := 0; state := 1 |} 3 4)
    as [Hlu Hul].
  - repeat split; cbn; lia.
  - reflexivity.
  - change (sint32 4) with 4 in Hlu, Hul.
    split; [apply Hlu; cbn; lia | apply Hul; cbn; [discriminate | lia]].
Defined.

(** X6: the depth is a byte and the claim primitive does not guard its
    increment.  At depth 255 a claim by the owner or on an unowned lock
    succeeds exactly when the maximum depth, read as the signed 32-bit
    number the comparison takes it for, is at least 255, that is for
    [255 <= max_depth < 2^31]; it then wraps the depth to 0, after which a
    release by the owner is refused as if the lock had never been taken.
    For any other maximum depth, those of [2^31] and more included (they
    read as negative), the claim is refused and the lock unchanged. *)
Theorem futex_fast_lock_wraps (f : futex_t) (t m : Z) :
  futex_wf f → owner f = 0xFF ∨ owner f = t → state f = 255 →
  (255 <= sint32 m →
   __futex_fast_lock true f t m = (0, set_state 0 f) ∧
   ∀ ok, __futex_fast_unlock ok (set_state 0 f) t = (1, set_state 0 f)) ∧
  (sint32 m < 255 → __futex_fast_lock true f t m = (1, f)) ∧
  (2 ^ 31 <= m < 2 ^ 32 → sint32 m < 255).
Proof.
  intros Hwf Ho Hs. split; [|split].
  - intros Hm. split.
    + destruct (futex_fast_lock_cases f t m Hwf Ho) as [[_ ->] | [? _]]; [|lia].
      by rewrite Hs.
    + intros ok. reflexivity.
  - intros Hm.
    destruct (futex_fast_lock_cases f t m Hwf Ho) as [[? _] | [_ ->]]; [lia|].
    reflexivity.
  - intros Hm. unfold sint32. rewrite uint32_small by lia.
    destruct (Z.ltb_spec m (2 ^ 31)); lia.
Qed.

Lemma futex_fast_lock_wraps_witness :
  (__futex_fast_lock true {| owner := 3; flags := 0; state := 255 |} 3 1000
   = (0, {| owner := 3; flags := 0; state := 0 |}) ∧
   ∀ ok, __futex_fast_unlock ok {| owner := 3; flags := 0; state := 0 |} 3
         = (1, {| owner := 3; flags := 0; state := 0 |})) ∧
  __futex_fast_lock true {| owner := 3; flags := 0; state := 255 |} 3 0xFFFFFFFF
  = (1, {| owner := 3; flags := 0; state := 255 |}).
Proof.
  split.
  - apply (proj1 (futex_fast_lock_wraps {| owner := 3; flags := 0; state := 255 |}
                    3 1000 ltac:(repeat split; cbn; lia) (or_intror eq_refl) eq_refl)).
    change (sint32 1000) with 1000. lia.
  - destruct (futex_fast_lock_wraps {| owner := 3; flags := 0; state := 255 |}
                3 0xFFFFFFFF ltac:(repeat split; cbn; lia) (or_intror eq_refl) eq_refl)
      as (_ & Hrefused & Hneg).
    apply Hrefused, Hneg. lia.
Defined.

(** ** Lock objects stay byte-sized *)

Lemma uint8_range (x : Z) : 0 <= uint8 x <= 255.
Proof. unfold uint8. pose proof (Z.mod_pos_bound x (2 ^ 8)). lia. Qed.

Lemma lor_byte (a b : Z) : 0 <= a <= 255 → 0 <= b <= 255 → 0 <= Z.lor a b <= 255.
Proof.
  intros Ha Hb. assert (0 <= Z.lor a b) as Hnn by (apply Z.lor_nonneg; lia).
  split; [exact Hnn|].
  destruct (Z.eq_dec (Z.lor a b) 0) as [-> | Hnz]; [lia|].
  assert (Z.lor a b < 2 ^ 8); [|lia].
  apply Z.log2_lt_pow2; [lia|].
  rewrite Z.log2_lor by lia.
  assert (∀ x, 0 <= x <= 255 → Z.log2 x < 8) as Hlog.
  { intros x Hx. destruct (Z.eq_dec x 0) as [-> | ?]; [reflexivity|].
    apply Z.log2_lt_pow2; lia. }
  pose proof (Hlog a Ha). pose proof (Hlog b Hb). lia.
Qed.

(** X7: every routine of the lock file takes a lock object whose owner,
    flags and state are bytes to one whose fields are bytes again, whoever
    calls it and however the store-exclusives turn out. *)
Theorem lock_routines_keep_bytes (f : futex_t) (t m : Z) (ok : bool)
    (strex : list bool) :
  futex_wf f →
  futex_wf (__futex_fast_lock ok f t m).2
  ∧ futex_wf (__futex_fast_unlock ok f t).2
  ∧ futex_wf (mutex_init f).2 ∧ futex_wf (mutex_destroy f).2
  ∧ futex_wf (mutex_trylock t ok f).2
  ∧ (∀ rv f', mutex_unlock t strex f = Some (rv, f') → futex_wf f')
  ∧ futex_wf (futex_init f).2
  ∧ (∀ rv f', futex_lock t strex f = Some (rv, f') → futex_wf f')
  ∧ futex_wf (futex_trylock t ok f).2
  ∧ futex_wf (futex_unlock t ok f).2.
Proof.
  intros Hwf. pose proof Hwf as (Ho & Hfl & Hs).
  assert (∀ v, futex_wf (set_state (uint8 v) f)) as Hst.
  { intros v. pose proof (uint8_range v). repeat split; cbn; lia. }
  assert (∀ t' m', futex_wf (__futex_fast_lock ok f t' m').2) as Hlock.
  { intros t' m'. unfold __futex_fast_lock.
    destruct (_ || _); [|exact Hwf].
    destruct (_ <? _); [exact Hwf|]. destruct ok; [apply Hst | exact Hwf]. }
  assert (∀ t', futex_wf (__futex_fast_unlock ok f t').2) as Hunlock.
  { intros t'. unfold __futex_fast_unlock.
    destruct (_ =? _); [exact Hwf|]. destruct (negb _); [exact Hwf|].
    destruct ok; [apply Hst | exact Hwf]. }
  repeat match goal with |- _ ∧ _ => split end.
  - apply Hlock.
  - apply Hunlock.
  - pose proof (lor_byte (flags f) MUTEX_INITIALIZED Hfl
                  ltac:(unfold MUTEX_INITIALIZED; lia)).
    unfold futex_wf, mutex_init.
    cbn [snd owner flags state set_state set_flags set_owner]. lia.
  - repeat split; cbn; lia.
  - pose proof (uint8_range t). unfold mutex_trylock.
    destruct (negb _); [exact Hwf|]. destruct (_ =? _); [|exact Hwf].
    destruct ok; [|exact Hwf]. repeat split; cbn; lia.
  - intros rv f'. unfold mutex_unlock.
    destruct (negb _); [by intros [= <- <-]|].
    destruct (_ =? _); [by intros [= <- <-]|].
    destruct (mutex_unlock_retry strex f) as [f1|] eqn:Hretry; [|discriminate].
    intros [= <- <-].
    assert (f1 = set_state 0 f) as ->.
    { clear -Hretry. induction strex as [|b rest IH]; [discriminate|].
      cbn in Hretry. destruct b; [by injection Hretry as <- | auto]. }
    repeat split; cbn; lia.
  - repeat split; cbn; lia.
  - intros rv f' Hl. pose proof (uint8_range t).
    destruct (futex_lock_result t strex f f' rv Hwf Hl) as [_ ->].
    repeat split; cbn; lia.
  - apply Hlock.
  - unfold futex_unlock. pose proof (Hunlock (uint8 t)) as Hu.
    destruct (__futex_fast_unlock ok f (uint8 t)) as [rv f1]. cbn in Hu.
    destruct (_ && _); [|exact Hu].
    destruct Hu as (? & ? & ?). repeat split; cbn; lia.
Qed.

Lemma lock_routines_keep_bytes_witness :
  futex_wf (__futex_fast_lock true {| owner := 3; flags := 0; state := 255 |} 3 300).2
  ∧ futex_wf (mutex_init {| owner := 3; flags := 254; state := 7 |}).2.
Proof.
  split.
  - apply (lock_routines_keep_bytes {| owner := 3; flags := 0; state := 255 |}
             3 300 true []).
    repeat split; cbn; lia.
  - apply (lock_routines_keep_bytes {| owner := 3; flags := 254; state := 7 |}
             3 0 true []).
    repeat split; cbn; lia.
Defined.

(** ** Binary lock: release and initialization *)

Lemma mutex_unlock_retry_all_fail (strex : list bool) (m : mutex_t) :
  true ∉ strex → mutex_unlock_retry strex m = None.
Proof.
  induction strex as [|ok rest IH]; intros Hnot; [reflexivity|].
  apply not_elem_of_cons in Hnot as [Hok Hrest].
  destruct ok; [done|]. cbn. by apply IH.
Qed.

(** X8: [mutex_unlock] by the owner of a held binary lock comes back
    exactly when one of its store-exclusives goes through, and then, however
    many failed before, with 0 and the lock unlocked: state 0, owner 0xFF,
    flags as they were. *)
Theorem mutex_unlock_owner_releases (t : Z) (strex : list bool) (m : mutex_t) :
  owner m = uint8 t → state m ≠ 0 →
  (is_Some (mutex_unlock t strex m) ↔ true ∈ strex) ∧
  ∀ rv m', mutex_unlock t strex m = Some (rv, m') →
    rv = 0 ∧ m' = {| owner := 0xFF; flags := flags m; state := 0 |}.
Proof.
  intros Ho Hs. destruct (decide (true ∈ strex)) as [Hin | Hnot].
  - rewrite mutex_unlock_owner_held by auto. split.
    + split; [auto | by eexists].
    + by intros rv m' [= <- <-].
  - unfold mutex_unlock. rewrite Ho, Z.eqb_refl. cbn [negb].
    destruct (Z.eqb_spec (state m) 0); [contradiction|].
    rewrite mutex_unlock_retry_all_fail by auto. split.
    + split; [intros [? [=]] | tauto].
    + intros rv m' [=].
Qed.

Lemma mutex_unlock_owner_releases_witness :
  (is_Some (mutex_unlock 3 [false; false; true] {| owner := 3; flags := 1; state := 1 |})
   ↔ true ∈ [false; false; true]) ∧
  ∀ rv m', mutex_unlock 3 [false; false; true] {| owner := 3; flags := 1; state := 1 |}
           = Some (rv, m') →
    rv = 0 ∧ m' = {| owner := 0xFF; flags := 1; state := 0 |}.
Proof.
  apply (mutex_unlock_owner_releases 3 [false; false; true]
           {| owner := 3; flags := 1; state := 1 |}).
  - reflexivity.
  - discriminate.
Defined.

(** X9: [mutex_init] makes no check: whatever the lock held before, held
    locks included, it comes out unlocked, with the initialized bit set and
    every other flag bit as it was; initializing twice is initializing
    once, and [mutex_destroy] afterwards clears all flags. *)
Theorem mutex_init_resets (m : mutex_t) :
  unlocked (mutex_init m).2
  ∧ (∀ i, Z.testbit (flags (mutex_init m).2) i
          = Z.testbit (flags m) i || Z.testbit MUTEX_INITIALIZED i)
  ∧ mutex_init (mutex_init m).2 = mutex_init m
  ∧ mutex_destroy (mutex_init m).2 = (0, {| owner := 0xFF; flags := 0; state := 0 |}).
Proof.
  split; [split; reflexivity|]. split; [|split].
  - intros i. cbn. apply Z.lor_spec.
  - unfold mutex_init, set_state, set_flags, set_owner.
    cbn [snd owner flags state]. do 2 f_equal.
    rewrite <- Z.lor_assoc, Z.lor_diag. reflexivity.
  - reflexivity.
Qed.

(** ** Binary lock under preemption: more of what every interleaving keeps *)

Lemma step_flags (e : event) (s s' : system) :
  step e s = Some s' → flags (mutex s') = flags (mutex s).
Proof.
  destruct e as [t | t | t spurious]; cbn; destruct (is_tid t); try discriminate.
  1,2: destruct (at_pc (threads s t)); try discriminate; by intros [= <-].
  unfold access.
  destruct (at_pc (threads s t)); try discriminate;
    repeat match goal with |- context [if ?c then _ else _] => destruct c end;
    by intros [= <-].
Qed.

Lemma run_flags (tr : list event) : ∀ s s',
  run tr s = Some s' → flags (mutex s') = flags (mutex s).
Proof.
  induction tr as [|e tr IH]; intros s s'; cbn.
  - by intros [= <-].
  - destruct (step e s) as [s1|] eqn:Hstep; [|discriminate].
    intros Hrun. rewrite (IH _ _ Hrun). by eapply step_flags.
Qed.

(** X10: in every state an interleaving of [mutex_lock] and [mutex_unlock]
    calls leads to, the state byte is 0 or 1, the owner byte is 0xFF or a
    thread identity, the flags are those of initialization, and a thread
    is in its critical section exactly when the lock reads state 1 with
    that thread as owner; in particular nobody is when the lock reads
    unlocked. *)
Theorem mutex_reachable_shape (s : system) :
  reachable s →
  (state (mutex s) = 0 ∨ state (mutex s) = 1)
  ∧ (owner (mutex s) = 0xFF ∨ is_tid (owner (mutex s)) = true)
  ∧ flags (mutex s) = MUTEX_INITIALIZED
  ∧ (∀ t, t ≠ 0xFF →
       (in_critical_section s t ↔ state (mutex s) = 1 ∧ owner (mutex s) = t))
  ∧ (unlocked (mutex s) → ∀ t, ¬ in_critical_section s t).
Proof.
  intros Hreach. pose proof (inv_reachable s Hreach) as Hinv.
  assert (flags (mutex s) = MUTEX_INITIALIZED) as Hfl.
  { destruct Hreach as [tr Hrun]. by rewrite (run_flags _ _ _ Hrun). }
  assert ((state (mutex s) = 0 ∧ owner (mutex s) = 0xFF)
          ∨ ∃ t, is_tid t = true ∧
              ((holds (threads s t) = true ∧ state (mutex s) = 1 ∧ owner (mutex s) = t)
               ∨ (holds (threads s t) = false ∧ state (mutex s) = 1 ∧ owner (mutex s) = 0xFF)
               ∨ (holds (threads s t) = false ∧ state (mutex s) = 0 ∧ owner (mutex s) = t)))
    as Hcases.
  { destruct (inv_free s Hinv) as [? | [t Hb]]; [by left | right].
    exists t. split; [by apply (inv_tid s Hinv)|].
    destruct (inv_phase s Hinv t) as [Hheld Hat].
    destruct Hb as [Hh | [Hl | Hu]].
    - left. destruct (Hheld Hh). auto.
    - right; left. by rewrite Hl in Hat.
    - right; right. by rewrite Hu in Hat. }
  split; [|split; [|split; [exact Hfl|split]]].
  - destruct Hcases as [[? _] | (t & _ & [(_ & ? & _) | [(_ & ? & _) | (_ & ? & _)]])]; auto.
  - destruct Hcases as [[_ ?] | (t & Ht & [(_ & _ & ->) | [(_ & _ & ?) | (_ & _ & ->)]])]; auto.
  - intros t Ht. split.
    + intros Hh. destruct (inv_phase s Hinv t) as [Hheld _]. by destruct (Hheld Hh).
    + intros [Hs Ho].
      destruct Hcases as [[? _] | (t0 & _ & [(Hh & _ & Ho') | [(_ & _ & ?) | (_ & ? & _)]])];
        unfold in_critical_section; congruence.
  - intros [Hs Ho] t Hh. eapply inv_free_idle; eauto. by left.
Qed.

Lemma threads_step_other (e : event) (s s' : system) (t : Z) :
  step e s = Some s' → event_thread e ≠ t → threads s' t = threads s t.
Proof.
  destruct e as [t0 | t0 | t0 spurious]; cbn; destruct (is_tid t0); try discriminate.
  1,2: destruct (at_pc (threads s t0)); try discriminate;
    intros [= <-] Hne; rewrite threads_goto; by destruct (decide (t0 = t)).
  unfold access. intros Hstep Hne.
  destruct (at_pc (threads s t0)); try discriminate;
    repeat match type of Hstep with
           | context [if ?c then _ else _] => destruct c
           end;
    injection Hstep as <-;
    rewrite ?threads_set_holds_goto, ?threads_goto; by destruct (decide (t0 = t)).
Qed.

(** X11: while a thread is in its critical section, no step of any other
    thread, whichever of the two routines it is running and however its
    store-exclusive turns out, changes the lock object or ends that
    critical section. *)
Theorem mutex_held_undisturbed (s s' : system) (e : event) (t : Z) :
  reachable s → in_critical_section s t →
  step e s = Some s' → event_thread e ≠ t →
  mutex s' = mutex s ∧ in_critical_section s' t.
Proof.
  intros Hinv%inv_reachable Hh Hstep Hne. split.
  2: { unfold in_critical_section. by rewrite (threads_step_other e s s' t). }
  destruct (inv_phase s Hinv t) as [Hheld _]. destruct (Hheld Hh) as [Hs Ho].
  assert (∀ t0, busy (threads s t0) → t0 = t) as Honly.
  { intros t0 Hb. apply (inv_unique s Hinv); [exact Hb | by left]. }
  destruct e as [t0 | t0 | t0 spurious]; cbn in Hstep, Hne;
    (destruct (is_tid t0); [|discriminate]).
  1,2: destruct (at_pc (threads s t0)); try discriminate; by injection Hstep as <-.
  unfold access in Hstep.
  destruct (inv_phase s Hinv t0) as [Hheld0 Hat0].
  destruct (at_pc (threads s t0)) eqn:Hpc; try discriminate.
  all: try (repeat match type of Hstep with
                   | context [if ?c then _ else _] => destruct c eqn:?
                   end; injection Hstep as <-; reflexivity).
  - (* Lock_strex *)
    destruct (reserved t0 s && negb spurious) eqn:Hok; injection Hstep as <-;
      [|reflexivity].
    apply andb_true_iff in Hok as [Hr%reserved_spec _].
    pose proof (inv_monitor s Hinv t0 Hr) as Hres.
    unfold reservation_ok in Hres. rewrite Hpc in Hres. destruct Hres. congruence.
  - (* Lock_set_owner *)
    destruct Hne. apply Honly. right; left; exact Hpc.
  - (* Unlock_retry_strex *)
    destruct Hne. apply Honly. by left.
  - (* Unlock_set_owner *)
    destruct Hne. apply Honly. right; right; exact Hpc.
Qed.

Lemma run_cons_step (e : event) (tr : list event) (s s1 : system) :
  step e s = Some s1 → run (e :: tr) s = run tr s1.
Proof. intros Hstep. cbn [run]. by rewrite Hstep. Qed.

Lemma step_access (t : Z) (spurious : bool) (s : system) :
  is_tid t = true → step (Access t spurious) s = access t spurious s.
Proof. intros Ht. cbn [step]. by rewrite Ht. Qed.

Lemma threads_goto_other (t t' : Z) (p : pc) (s : system) :
  t' ≠ t → threads (goto t p s) t' = threads s t'.
Proof. intros Hne. rewrite threads_goto. destruct (decide (t = t')); congruence. Qed.

Lemma holds_goto (t : Z) (p : pc) (s : system) :
  holds (threads (goto t p s) t) = holds (threads s t).
Proof. rewrite threads_goto. by destruct (decide (t = t)). Qed.

(** One turn of [mutex_lock] by a thread on its own, on a free lock. *)
Lemma lock_attempt_run (t : Z) (spurious : bool) (s : system) :
  is_tid t = true → at_pc (threads s t) = Lock_ldrex → unlocked (mutex s) →
  ∃ s', run (lock_attempt t spurious) s = Some s'
    ∧ (∀ t', t' ≠ t → threads s' t' = threads s t')
    ∧ if spurious
      then threads s' t = threads s t ∧ mutex s' = mutex s
      else threads s' t = {| at_pc := Out; holds := true |}
           ∧ mutex s' = {| owner := t; flags := flags (mutex s); state := 1 |}.
Proof.
  intros Ht Hpc [Hs Ho]. pose proof (is_tid_spec t Ht) as Hne.
  set (s1 := goto t (Lock_owner_tid 0) (set_monitor (Some t) s)).
  set (s2 := goto t (Lock_owner_ff 0) s1).
  set (s3 := goto t Lock_strex s2).
  assert (step (Access t false) s = Some s1) as H1.
  { rewrite step_access by done. unfold access. by rewrite Hpc, Hs. }
  assert (step (Access t false) s1 = Some s2) as H2.
  { rewrite step_access by done. unfold access. subst s1. rewrite at_pc_goto.
    cbn [mutex goto set_monitor]. rewrite Ho.
    destruct (Z.eqb_spec 255 t); [congruence | reflexivity]. }
  assert (step (Access t false) s2 = Some s3) as H3.
  { rewrite step_access by done. unfold access. subst s2. rewrite at_pc_goto.
    cbn [mutex goto set_monitor]. subst s1. cbn [mutex goto set_monitor].
    by rewrite Ho. }
  assert (reserved t s3 = true) as Hres by (cbn; apply Z.eqb_refl).
  assert (at_pc (threads s3 t) = Lock_strex) as Hpc3 by apply at_pc_goto.
  assert (mutex s3 = mutex s) as Hm3 by reflexivity.
  assert (holds (threads s3 t) = holds (threads s t)) as Hh3.
  { subst s3 s2 s1. by rewrite !holds_goto. }
  assert (∀ t', t' ≠ t → threads s3 t' = threads s t') as Ho3.
  { intros t' Hne'. subst s3 s2 s1. by rewrite !threads_goto_other. }
  unfold lock_attempt.
  rewrite (run_cons_step _ _ _ _ H1), (run_cons_step _ _ _ _ H2),
    (run_cons_step _ _ _ _ H3).
  clearbody s3. clear H1 H2 H3 s1 s2.
  destruct spurious.
  - set (s4 := goto t Lock_yield (set_monitor None s3)).
    assert (step (Access t true) s3 = Some s4) as H4.
    { rewrite step_access by done. unfold access.
      by rewrite Hpc3, Hres. }
    set (s5 := goto t Lock_ldrex s4).
    assert (step (Access t false) s4 = Some s5) as H5.
    { rewrite step_access by done. unfold access. subst s4. by rewrite at_pc_goto. }
    rewrite (run_cons_step _ _ _ _ H4), (run_cons_step _ _ _ _ H5).
    exists s5. split; [reflexivity|]. subst s5 s4. split; [|split].
    + intros t' Hne'. rewrite !threads_goto_other by done. by apply Ho3.
    + rewrite threads_goto, decide_True by done. rewrite holds_goto.
      cbn [threads set_monitor]. rewrite Hh3, <- Hpc. by destruct (threads s t).
    + exact Hm3.
  - set (s4 := goto t Lock_set_owner
                 (set_monitor None (set_mutex (set_state 1 (mutex s3)) s3))).
    assert (step (Access t false) s3 = Some s4) as H4.
    { rewrite step_access by done. unfold access.
      by rewrite Hpc3, Hres. }
    set (s5 := set_holds t true (goto t Out (set_mutex (set_owner t (mutex s4)) s4))).
    assert (step (Access t false) s4 = Some s5) as H5.
    { rewrite step_access by done. unfold access. subst s4. by rewrite at_pc_goto. }
    rewrite (run_cons_step _ _ _ _ H4), (run_cons_step _ _ _ _ H5).
    exists s5. split; [reflexivity|]. subst s5 s4. split; [|split].
    + intros t' Hne'. rewrite threads_set_holds_goto.
      destruct (decide (t = t')); [congruence|]. cbn [threads set_mutex].
      rewrite threads_goto_other by done. by apply Ho3.
    + rewrite threads_set_holds_goto. by rewrite decide_True.
    + cbn. by rewrite Hm3.
Qed.

Lemma lock_attempts_run (t : Z) (n : nat) : ∀ s,
  is_tid t = true → at_pc (threads s t) = Lock_ldrex → unlocked (mutex s) →
  ∃ s', run (concat (replicate n (lock_attempt t true))) s = Some s'
    ∧ (∀ t', threads s' t' = threads s t') ∧ mutex s' = mutex s.
Proof.
  induction n as [|n IH]; intros s Ht Hpc Hun.
  - exists s. by cbn.
  - destruct (lock_attempt_run t true s Ht Hpc Hun) as (s1 & Hrun1 & Hoth1 & Hth1 & Hm1).
    destruct (IH s1 Ht) as (s' & Hrun & Hth & Hm).
    { by rewrite Hth1. }
    { by rewrite Hm1. }
    exists s'. split; [|split].
    + change (replicate (S n) (lock_attempt t true))
        with (lock_attempt t true :: replicate n (lock_attempt t true)).
      rewrite concat_cons, run_app, Hrun1. exact Hrun.
    + intros t'. rewrite Hth. destruct (decide (t' = t)) as [-> | Hne]; auto.
    + congruence.
Qed.

Lemma lone_lock_run (t : Z) (failures : nat) (s : system) :
  is_tid t = true → at_pc (threads s t) = Out → unlocked (mutex s) →
  ∃ s', run (lone_lock t failures) s = Some s'
    ∧ threads s' t = {| at_pc := Out; holds := true |}
    ∧ mutex s' = {| owner := t; flags := flags (mutex s); state := 1 |}
    ∧ ∀ t', t' ≠ t → threads s' t' = threads s t'.
Proof.
  intros Ht Hpc Hun. unfold lone_lock.
  set (s0 := goto t Lock_ldrex s).
  assert (step (Call_lock t) s = Some s0) as H0.
  { cbn [step]. by rewrite Ht, Hpc. }
  rewrite (run_cons_step _ _ _ _ H0), run_app.
  destruct (lock_attempts_run t failures s0 Ht) as (s1 & -> & Hth1 & Hm1);
    [apply at_pc_goto | exact Hun |].
  cbn [mbind option_bind].
  destruct (lock_attempt_run t false s1 Ht) as (s' & -> & Hoth & Hth & Hm).
  { rewrite Hth1. apply at_pc_goto. }
  { by rewrite Hm1. }
  exists s'. split; [reflexivity|]. split; [exact Hth|]. split.
  - rewrite Hm, Hm1. reflexivity.
  - intros t' Hne. rewrite Hoth, Hth1 by done. subst s0.
    by apply threads_goto_other.
Qed.

Lemma unlock_retries_run (t : Z) (n : nat) : ∀ s,
  is_tid t = true → at_pc (threads s t) = Unlock_retry_ldrex →
  ∃ s', run (concat (replicate n [Access t false; Access t true])) s = Some s'
    ∧ at_pc (threads s' t) = Unlock_retry_ldrex
    ∧ holds (threads s' t) = holds (threads s t)
    ∧ (∀ t', t' ≠ t → threads s' t' = threads s t') ∧ mutex s' = mutex s.
Proof.
  induction n as [|n IH]; intros s Ht Hpc.
  - exists s. by cbn.
  - set (s1 := goto t Unlock_retry_strex (set_monitor (Some t) s)).
    set (s2 := goto t Unlock_retry_ldrex (set_monitor None s1)).
    assert (step (Access t false) s = Some s1) as H1.
    { rewrite step_access by done. unfold access. by rewrite Hpc. }
    assert (step (Access t true) s1 = Some s2) as H2.
    { rewrite step_access by done. unfold access. subst s1. rewrite at_pc_goto.
      by rewrite andb_false_r. }
    destruct (IH s2 Ht) as (s' & Hrun & Hpc' & Hh & Hoth & Hm); [apply at_pc_goto|].
    exists s'. split; [|split; [exact Hpc'|split; [|split]]].
    + change (replicate (S n) [Access t false; Access t true])
        with ([Access t false; Access t true]
                :: replicate n [Access t false; Access t true]).
      rewrite concat_cons. cbn [app].
      by rewrite (run_cons_step _ _ _ _ H1), (run_cons_step _ _ _ _ H2).
    + rewrite Hh. subst s2 s1. rewrite holds_goto. cbn [threads set_monitor].
      by rewrite holds_goto.
    + intros t' Hne. rewrite Hoth by done. subst s2 s1.
      rewrite threads_goto_other by done. cbn [threads set_monitor].
      by rewrite threads_goto_other.
    + by rewrite Hm.
Qed.

Lemma lone_unlock_run (t : Z) (failures : nat) (s : system) :
  is_tid t = true → at_pc (threads s t) = Out →
  owner (mutex s) = t → state (mutex s) ≠ 0 →
  ∃ s', run (lone_unlock t failures) s = Some s'
    ∧ threads s' t = {| at_pc := Out; holds := false |}
    ∧ mutex s' = {| owner := 0xFF; flags := flags (mutex s); state := 0 |}
    ∧ ∀ t', t' ≠ t → threads s' t' = threads s t'.
Proof.
  intros Ht Hpc Ho Hs. unfold lone_unlock.
  set (s1 := goto t Unlock_ldrex s).
  set (s2 := goto t (Unlock_owner (state (mutex s))) (set_monitor (Some t) s1)).
  set (s3 := goto t Unlock_retry_ldrex s2).
  assert (step (Call_unlock t) s = Some s1) as H1.
  { cbn [step]. by rewrite Ht, Hpc. }
  assert (step (Access t false) s1 = Some s2) as H2.
  { rewrite step_access by done. unfold access. subst s1. by rewrite at_pc_goto. }
  assert (step (Access t false) s2 = Some s3) as H3.
  { rewrite step_access by done. unfold access. subst s2. rewrite at_pc_goto.
    cbn [mutex goto set_monitor]. subst s1. cbn [mutex goto]. rewrite Ho, Z.eqb_refl.
    cbn [negb]. by destruct (Z.eqb_spec (state (mutex s)) 0). }
  cbn [app].
  rewrite (run_cons_step _ _ _ _ H1), (run_cons_step _ _ _ _ H2),
    (run_cons_step _ _ _ _ H3), run_app.
  destruct (unlock_retries_run t failures s3 Ht) as (s4 & -> & Hpc4 & _ & Hoth4 & Hm4);
    [apply at_pc_goto|].
  cbn [mbind option_bind].
  set (s5 := goto t Unlock_retry_strex (set_monitor (Some t) s4)).
  set (s6 := set_holds t false
               (goto t Unlock_set_owner
                  (set_monitor None (set_mutex (set_state 0 (mutex s5)) s5)))).
  set (s7 := goto t Out (set_mutex (set_owner 0xFF (mutex s6)) s6)).
  assert (step (Access t false) s4 = Some s5) as H5.
  { rewrite step_access by done. unfold access. by rewrite Hpc4. }
  assert (step (Access t false) s5 = Some s6) as H6.
  { rewrite step_access by done. unfold access. subst s5. rewrite at_pc_goto.
    assert (reserved t (goto t Unlock_retry_strex (set_monitor (Some t) s4)) = true)
      as -> by (cbn; apply Z.eqb_refl).
    reflexivity. }
  assert (step (Access t false) s6 = Some s7) as H7.
  { rewrite step_access by done. unfold access. subst s6.
    rewrite threads_set_holds_goto, decide_True by done. reflexivity. }
  rewrite (run_cons_step _ _ _ _ H5), (run_cons_step _ _ _ _ H6),
    (run_cons_step _ _ _ _ H7).
  exists s7. split; [reflexivity|]. split; [|split].
  - subst s7. rewrite threads_goto, decide_True by done. f_equal.
    cbn [threads set_mutex]. subst s6.
    by rewrite threads_set_holds_goto, decide_True.
  - subst s7 s6 s5. cbn. by rewrite Hm4.
  - intros t' Hne. subst s7. rewrite threads_goto_other by done.
    cbn [threads set_mutex]. subst s6. rewrite threads_set_holds_goto.
    destruct (decide (t = t')); [congruence|].
    cbn [threads set_monitor set_mutex]. subst s5.
    rewrite threads_goto_other by done. cbn [threads set_monitor].
    rewrite Hoth4 by done. subst s3 s2 s1.
    rewrite !threads_goto_other by done. cbn [threads set_monitor].
    by rewrite threads_goto_other.
Qed.

(** X12: [mutex_lock] by a thread that is left alone on an unlocked lock
    returns, after any number of spurious store-exclusive failures, with
    the thread in its critical section and the lock at state 1 with the
    thread as owner; flags and the other threads are as they were. *)
Theorem mutex_lock_lone (t : Z) (failures : nat) (s : system) :
  is_tid t = true → at_pc (threads s t) = Out → unlocked (mutex s) →
  ∃ s', run (lone_lock t failures) s = Some s'
    ∧ in_critical_section s' t ∧ at_pc (threads s' t) = Out
    ∧ mutex s' = {| owner := t; flags := flags (mutex s); state := 1 |}
    ∧ ∀ t', t' ≠ t → threads s' t' = threads s t'.
Proof.
  intros Ht Hpc Hun.
  destruct (lone_lock_run t failures s Ht Hpc Hun) as (s' & Hrun & Hth & Hm & Hoth).
  exists s'. unfold in_critical_section. by rewrite Hth.
Qed.

(** X13: [mutex_lock] followed by [mutex_unlock], by a thread left alone
    and with any number of spurious store-exclusive failures in either,
    takes an unlocked lock back to exactly the lock object it was, with
    the thread outside both routines and outside its critical section. *)
Theorem mutex_lock_unlock_lone (t : Z) (n k : nat) (s : system) :
  is_tid t = true → at_pc (threads s t) = Out → unlocked (mutex s) →
  ∃ s', run (lone_lock t n ++ lone_unlock t k) s = Some s'
    ∧ mutex s' = mutex s
    ∧ threads s' t = {| at_pc := Out; holds := false |}
    ∧ ∀ t', t' ≠ t → threads s' t' = threads s t'.
Proof.
  intros Ht Hpc Hun.
  destruct (lone_lock_run t n s Ht Hpc Hun) as (s1 & Hrun1 & Hth1 & Hm1 & Hoth1).
  destruct (lone_unlock_run t k s1 Ht) as (s' & Hrun & Hth & Hm & Hoth).
  { by rewrite Hth1. }
  { by rewrite Hm1. }
  { by rewrite Hm1. }
  exists s'. split; [by rewrite run_app, Hrun1|]. split; [|split; [exact Hth|]].
  - rewrite Hm, Hm1. destruct Hun as [Hs Ho]. cbn.
    destruct (mutex s); cbn in *; by subst.
  - intros t' Hne. by rewrite Hoth, Hoth1.
Qed.

Lemma relock_step (e : event) (s s' : system) (t : Z) :
  inv s → holds (threads s t) = true → in_mutex_lock (at_pc (threads s t)) →
  step e s = Some s' →
  holds (threads s' t) = true ∧ in_mutex_lock (at_pc (threads s' t)).
Proof.
  intros Hinv Hh Hin Hstep.
  destruct (decide (event_thread e = t)) as [He | He].
  2: { by rewrite (threads_step_other e s s' t). }
  destruct (inv_phase s Hinv t) as [Hheld _]. destruct (Hheld Hh) as [Hs Ho].
  destruct e as [t0 | t0 | t0 spurious]; cbn in He; subst t0; cbn in Hstep;
    (destruct (is_tid t) eqn:Ht; [|discriminate]).
  1,2: by destruct (at_pc (threads s t)).
  unfold access in Hstep.
  destruct (at_pc (threads s t)) eqn:Hpc; try done.
  - injection Hstep as <-. by rewrite holds_goto, at_pc_goto.
  - destruct (negb _); injection Hstep as <-; rewrite holds_goto, at_pc_goto;
      (split; [done|]); [done|]. unfold lock_test. by destruct (_ =? _).
  - destruct (negb _); injection Hstep as <-; rewrite holds_goto, at_pc_goto;
      (split; [done|]); [done|]. unfold lock_test. by destruct (_ =? _).
  - injection Hstep as <-. by rewrite holds_goto, at_pc_goto.
  - destruct (reserved t s && negb spurious) eqn:Hok; injection Hstep as <-.
    + apply andb_true_iff in Hok as [Hr%reserved_spec _].
      pose proof (inv_monitor s Hinv t Hr) as Hres.
      unfold reservation_ok in Hres. rewrite Hpc in Hres. destruct Hres. congruence.
    + rewrite holds_goto, at_pc_goto. cbn [threads set_monitor]. done.
Qed.

(** X14: the binary lock is not recursive.  Once a thread that is in its
    critical section is inside [mutex_lock] again, no interleaving ever
    brings it out: it stays in the loop, still holding the lock. *)
Theorem mutex_relock_never_returns (tr : list event) : ∀ (s s' : system) (t : Z),
  reachable s → in_critical_section s t → in_mutex_lock (at_pc (threads s t)) →
  run tr s = Some s' →
  in_critical_section s' t ∧ in_mutex_lock (at_pc (threads s' t))
  ∧ at_pc (threads s' t) ≠ Out.
Proof.
  induction tr as [|e tr IH]; intros s s' t Hreach Hh Hin Hrun; cbn in Hrun.
  - injection Hrun as <-. split; [done|]. split; [done|].
    intros Hout. by rewrite Hout in Hin.
  - destruct (step e s) as [s1|] eqn:Hstep; [|discriminate].
    destruct (relock_step e s s1 t (inv_reachable s Hreach) Hh Hin Hstep) as [Hh1 Hin1].
    apply (IH s1 s' t); auto.
    destruct Hreach as [tr0 Hrun0]. exists (tr0 ++ [e]).
    rewrite run_app, Hrun0. cbn. by rewrite Hstep.
Qed.

Lemma mutex_reachable_shape_witness :
  (state (mutex demo_system) = 0 ∨ state (mutex demo_system) = 1)
  ∧ (owner (mutex demo_system) = 0xFF ∨ is_tid (owner (mutex demo_system)) = true)
  ∧ flags (mutex demo_system) = MUTEX_INITIALIZED
  ∧ (∀ t, t ≠ 0xFF →
       (in_critical_section demo_system t
        ↔ state (mutex demo_system) = 1 ∧ owner (mutex demo_system) = t))
  ∧ (unlocked (mutex demo_system) → ∀ t, ¬ in_critical_section demo_system t).
Proof.
  apply (mutex_reachable_shape demo_system). exists demo_trace. reflexivity.
Defined.

Lemma mutex_held_undisturbed_witness :
  ∃ s', step (Call_unlock 3) demo_system = Some s'
    ∧ mutex s' = mutex demo_system ∧ in_critical_section s' 1.
Proof.
  eexists. split; [reflexivity|].
  eapply (mutex_held_undisturbed demo_system _ (Call_unlock 3) 1).
  - exists demo_trace. reflexivity.
  - reflexivity.
  - reflexivity.
  - discriminate.
Defined.

Lemma mutex_lock_lone_witness :
  ∃ s', run (lone_lock 1 2) boot = Some s'
    ∧ in_critical_section s' 1 ∧ at_pc (threads s' 1) = Out
    ∧ mutex s' = {| owner := 1; flags := flags (mutex boot); state := 1 |}
    ∧ ∀ t', t' ≠ 1 → threads s' t' = threads boot t'.
Proof.
  apply (mutex_lock_lone 1 2 boot); [reflexivity | reflexivity | split; reflexivity].
Defined.

Lemma mutex_lock_unlock_lone_witness :
  ∃ s', run (lone_lock 1 2 ++ lone_unlock 1 3) boot = Some s'
    ∧ mutex s' = mutex boot
    ∧ threads s' 1 = {| at_pc := Out; holds := false |}
    ∧ ∀ t', t' ≠ 1 → threads s' t' = threads boot t'.
Proof.
  apply (mutex_lock_unlock_lone 1 2 3 boot);
    [reflexivity | reflexivity | split; reflexivity].
Defined.

Lemma mutex_relock_never_returns_witness :
  ∃ s s', step (Call_lock 1) demo_system = Some s
    ∧ run [Access 1 false; Access 2 false; Access 1 false; Access 1 true] s = Some s'
    ∧ in_critical_section s' 1 ∧ in_mutex_lock (at_pc (threads s' 1))
    ∧ at_pc (threads s' 1) ≠ Out.
Proof.
  eexists _, _. split; [reflexivity|]. split; [reflexivity|].
  eapply (mutex_relock_never_returns
            [Access 1 false; Access 2 false; Access 1 false; Access 1 true]).
  - exists (demo_trace ++ [Call_lock 1]). reflexivity.
  - reflexivity.
  - exact I.
  - reflexivity.
Defined.

(** * Further properties of the scheduler file *)

(** ** Thread bootstrap: what is written, and where *)

Lemma uint32_idemp (x : Z) : uint32 (uint32 x) = uint32 x.
Proof. unfold uint32. apply Zmod_mod. Qed.

Lemma word_at_range (base i : Z) : 0 <= word_at base i < 2 ^ 32.
Proof. unfold word_at, uint32. apply Z.mod_pos_bound. lia. Qed.

(** [stack[stack_size - k]] without the wrap-around, when it stays inside
    the address space. *)
Lemma word_at_sub (base stack_size k : Z) :
  0 <= base + 4 * stack_size - 4 * k < 2 ^ 32 →
  word_at base (stack_size - k) = base + 4 * stack_size - 4 * k.
Proof.
  intros Hin. transitivity (uint32 (word_at base (stack_size - k) + 0)).
  - rewrite Z.add_0_r. unfold word_at. by rewrite uint32_idemp.
  - rewrite uint32_word_at, uint32_small by lia. lia.
Qed.

(** X15: [os_thread_populate_stack] writes the four words it names and
    nothing else: every other word of memory, the remaining twelve of the
    initial context included, reads as it did before. *)
Theorem os_thread_populate_stack_elsewhere `{Runtime}
    (stack_id stack_size entrypoint data : Z) (mem : memory) (addr : Z) :
  (∀ k, written_slot k →
        uint32 addr ≠ word_at (os_stack_get stack_id) (stack_size - k)) →
  load32 (os_thread_populate_stack stack_id stack_size entrypoint data mem).2 addr
  = load32 mem addr.
Proof.
  intros Hother. unfold os_thread_populate_stack. cbn [snd].
  assert (∀ k, written_slot k →
            uint32 (word_at (os_stack_get stack_id) (stack_size - k)) ≠ uint32 addr)
    as Hne.
  { intros k Hk Heq. apply (Hother k Hk). rewrite <- Heq.
    unfold word_at. by rewrite uint32_idemp. }
  rewrite !load32_store32.
  repeat (destruct (decide _) as [Heq | _];
          [exfalso; revert Heq; apply Hne; unfold written_slot; tauto|]).
  reflexivity.
Qed.

Lemma os_thread_populate_stack_elsewhere_witness :
  load32 (os_thread_populate_stack (H := demo_runtime) 1 256 0x08000201 0xCAFEBABE
            (λ _, 0x55)).2 (0x20001000 + 1024 + 4 * (256 - 7))
  = load32 (λ _, 0x55) (0x20001000 + 1024 + 4 * (256 - 7)).
Proof.
  apply (os_thread_populate_stack_elsewhere (H := demo_runtime) 1 256 0x08000201
           0xCAFEBABE (λ _, 0x55)).
  intros k [-> | [-> | [-> | ->]]]; vm_compute; discriminate.
Defined.

(** X16: for a stack of [words] 32-bit words at [os_stack_get stack_id]
    that lies inside the address space, and a [stack_size] between 16 and
    [words], the stack pointer returned is [stack_size - 16] words into the
    stack, the sixteen-word initial context from there ends exactly at word
    [stack_size], and the four words written are its last eight: nothing
    lands outside the stack. *)
Theorem os_thread_populate_stack_in_bounds `{Runtime}
    (stack_id stack_size entrypoint data words : Z) (mem : memory) :
  let stack := os_stack_get stack_id in
  let sp := (os_thread_populate_stack stack_id stack_size entrypoint data mem).1 in
  0 <= stack → stack + 4 * words <= 2 ^ 32 → 16 <= stack_size <= words →
  sp = stack + 4 * (stack_size - 16)
  ∧ stack <= sp ∧ sp + 4 * 16 <= stack + 4 * words
  ∧ ∀ k, written_slot k →
      sp + 4 * 8 <= word_at stack (stack_size - k) < sp + 4 * 16.
Proof.
  intros stack sp Hbase Htop Hsize. subst sp.
  unfold os_thread_populate_stack. cbn [fst]. fold stack.
  rewrite word_at_sub by lia. repeat split; try lia.
  all: destruct H0 as [-> | [-> | [-> | ->]]]; rewrite word_at_sub by lia; lia.
Qed.

Lemma os_thread_populate_stack_in_bounds_witness :
  (os_thread_populate_stack (H := demo_runtime) 1 256 0x08000201 0xCAFEBABE (λ _, 0)).1
  = 0x20001400 + 4 * (256 - 16)
  ∧ 0x20001400
    <= (os_thread_populate_stack (H := demo_runtime) 1 256 0x08000201 0xCAFEBABE (λ _, 0)).1
  ∧ (os_thread_populate_stack (H := demo_runtime) 1 256 0x08000201 0xCAFEBABE (λ _, 0)).1
    + 4 * 16 <= 0x20001400 + 4 * 256
  ∧ ∀ k, written_slot k →
      (os_thread_populate_stack (H := demo_runtime) 1 256 0x08000201 0xCAFEBABE (λ _, 0)).1
      + 4 * 8 <= word_at 0x20001400 (256 - k)
      < (os_thread_populate_stack (H := demo_runtime) 1 256 0x08000201 0xCAFEBABE (λ _, 0)).1
        + 4 * 16.
Proof.
  apply (os_thread_populate_stack_in_bounds (H := demo_runtime) 1 256 0x08000201
           0xCAFEBABE 256 (λ _, 0)); repeat split; vm_compute; congruence.
Defined.

(** X17: the routine checks nothing.  With a [stack_size] under 16 words
    (and the stack at least 64 bytes into the address space) the stack
    pointer it returns lies below the stack, and with one under 8 the
    first-argument word is written below the stack as well. *)
Theorem os_thread_populate_stack_too_small `{Runtime}
    (stack_id stack_size entrypoint data : Z) (mem : memory) :
  let stack := os_stack_get stack_id in
  64 <= stack → stack + 4 * stack_size < 2 ^ 32 → 0 <= stack_size < 16 →
  (os_thread_populate_stack stack_id stack_size entrypoint data mem).1
  = stack - 4 * (16 - stack_size)
  ∧ (os_thread_populate_stack stack_id stack_size entrypoint data mem).1 < stack
  ∧ (stack_size < 8 →
     load32 (os_thread_populate_stack stack_id stack_size entrypoint data mem).2
       (stack - 4 * (8 - stack_size)) = data).
Proof.
  intros stack Hbase Htop Hsize.
  unfold os_thread_populate_stack. cbn [fst snd]. fold stack.
  rewrite (word_at_sub stack stack_size 16) by lia. split; [lia|]. split; [lia|].
  intros Hsmall. rewrite !load32_store32.
  rewrite !word_at_sub by lia.
  do 3 (destruct (decide _) as [Heq | _];
        [rewrite !uint32_small in Heq by lia; lia|]).
  destruct (decide _) as [_ | Hne]; [reflexivity|].
  destruct Hne. f_equal. lia.
Qed.

Lemma os_thread_populate_stack_too_small_witness :
  (os_thread_populate_stack (H := demo_runtime) 1 4 0x08000201 0xCAFEBABE (λ _, 0)).1
  = 0x20001400 - 4 * (16 - 4)
  ∧ (os_thread_populate_stack (H := demo_runtime) 1 4 0x08000201 0xCAFEBABE (λ _, 0)).1
    < 0x20001400
  ∧ (4 < 8 →
     load32 (os_thread_populate_stack (H := demo_runtime) 1 4 0x08000201 0xCAFEBABE
               (λ _, 0)).2 (0x20001400 - 4 * (8 - 4)) = 0xCAFEBABE).
Proof.
  apply (os_thread_populate_stack_too_small (H := demo_runtime) 1 4 0x08000201
           0xCAFEBABE (λ _, 0)); repeat split; vm_compute; congruence.
Defined.

(** ** Process creation: success, frame, and creating again *)

Section process_create_more.
Context `{Mpu}.
Implicit Types (def : OS_process_definition_t) (p : OS_process_t).
Implicit Types (os_processes : list OS_process_t).

(** However the loop ends, the slot keeps its number of registers, and its
    definition is the one it had (result [E_OK]) or null ([E_INVALID]). *)
Lemma os_process_create_regions_post def (n : nat) : ∀ (q : Z) p (rv : Z) p',
  os_process_create_regions n q def p = (rv, p') →
  length (mpu p') = length (mpu p)
  ∧ ((rv = E_OK ∧ definition p' = definition p)
     ∨ (rv = E_INVALID ∧ definition p' = None)).
Proof.
  induction n as [|n IH]; intros q p rv p'.
  - cbn. intros [= <- <-]. auto.
  - rewrite os_process_create_regions_S. cbv zeta.
    destruct (negb _).
    + intros [= <- <-]. cbn. rewrite length_insert. auto.
    + intros Hrun. destruct (IH _ _ _ _ Hrun) as [Hlen Hdef].
      cbn in Hlen, Hdef. rewrite length_insert in Hlen. auto.
Qed.

(** The loop over regions the driver accepts, all of them. *)
Lemma os_process_create_regions_ok def (n : nat) : ∀ (q : Z) p,
  0 <= q → (Z.to_nat q + n <= length (mpu p))%nat →
  (∀ j, q <= j < q + Z.of_nat n → (region_descriptor def p j).1 = E_OK) →
  ∃ p', os_process_create_regions n q def p = (E_OK, p')
    ∧ definition p' = definition p
    ∧ (∀ j, q <= j < q + Z.of_nat n →
         mpu p' !! Z.to_nat j = Some (region_descriptor def p j).2)
    ∧ (∀ j, 0 <= j < q ∨ q + Z.of_nat n <= j →
         mpu p' !! Z.to_nat j = mpu p !! Z.to_nat j).
Proof.
  induction n as [|n IH]; intros q p Hq Hlen Hok.
  - exists p. cbn. repeat split; auto. intros; lia.
  - rewrite os_process_create_regions_S. cbv zeta.
    set (p1 := set_mpu _ p).
    rewrite (Hok q), Z.eqb_refl by lia. cbn [negb].
    destruct (IH (q + 1) p1) as (p' & Hrun & Hdef & Hnew & Hold).
    + lia.
    + subst p1; cbn. rewrite length_insert. lia.
    + intros j Hj. subst p1. rewrite region_descriptor_insert by lia.
      apply Hok. lia.
    + exists p'. split; [exact Hrun|]. split; [exact Hdef|]. split.
      * intros j Hj. destruct (Z.eq_dec j q) as [-> | Hjq].
        -- rewrite Hold by lia. subst p1; cbn.
           apply list_lookup_insert_eq. lia.
        -- rewrite Hnew by lia. subst p1.
           by rewrite region_descriptor_insert by lia.
      * intros j Hj. rewrite Hold by lia. subst p1; cbn.
        apply list_lookup_insert_ne. lia.
Qed.

(** A loop that ends with [E_OK] had every region accepted. *)
Lemma os_process_create_regions_ok_inv def (n : nat) : ∀ (q : Z) p p',
  0 <= q → os_process_create_regions n q def p = (E_OK, p') →
  ∀ j, q <= j < q + Z.of_nat n → (region_descriptor def p j).1 = E_OK.
Proof.
  induction n as [|n IH]; intros q p p' Hq Hrun j Hj; [lia|].
  rewrite os_process_create_regions_S in Hrun. cbv zeta in Hrun.
  destruct (Z.eqb_spec (region_descriptor def p q).1 E_OK) as [Hacc | _];
    [|discriminate]. cbn [negb] in Hrun.
  destruct (Z.eq_dec j q) as [-> | Hjq]; [exact Hacc|].
  rewrite <- (region_descriptor_insert def p q j (region_descriptor def p q).2) by lia.
  eapply IH; [|exact Hrun|]; lia.
Qed.

(** X18: [os_process_create] on an in-range process id whose slot has no
    definition and at least [OS_TASK_MPU_REGIONS] registers returns [E_OK]
    exactly when the driver accepts every one of the regions.  The slot
    then points at the definition, its first [OS_TASK_MPU_REGIONS]
    registers hold the descriptors computed from the definition's regions
    in order, and any further register is as it was. *)
Theorem os_process_create_defines process_id def os_processes p :
  0 <= process_id < OS_PROCESSES →
  os_processes !! Z.to_nat process_id = Some p →
  definition p = None →
  (Z.to_nat OS_TASK_MPU_REGIONS <= length (mpu p))%nat →
  ((os_process_create process_id def os_processes).1 = E_OK
   ↔ ∀ j, 0 <= j < OS_TASK_MPU_REGIONS → (region_descriptor def p j).1 = E_OK)
  ∧ ((∀ j, 0 <= j < OS_TASK_MPU_REGIONS → (region_descriptor def p j).1 = E_OK) →
     ∃ p', os_process_create process_id def os_processes
           = (E_OK, <[Z.to_nat process_id := p']> os_processes)
       ∧ definition p' = Some def
       ∧ (∀ j, 0 <= j < OS_TASK_MPU_REGIONS →
            mpu p' !! Z.to_nat j = Some (region_descriptor def p j).2)
       ∧ (∀ j, OS_TASK_MPU_REGIONS <= j → mpu p' !! Z.to_nat j = mpu p !! Z.to_nat j)).
Proof.
  intros Hid Hp Hdef Hlen. unfold os_process_create.
  destruct (Z.leb_spec OS_PROCESSES process_id); [lia|].
  rewrite (list_lookup_total_correct _ _ _ Hp), Hdef.
  assert ((∀ j, 0 <= j < OS_TASK_MPU_REGIONS → (region_descriptor def p j).1 = E_OK) →
          ∃ p', os_process_create_regions (Z.to_nat OS_TASK_MPU_REGIONS) 0 def
                  (set_definition (Some def) p) = (E_OK, p')
            ∧ definition p' = Some def
            ∧ (∀ j, 0 <= j < OS_TASK_MPU_REGIONS →
                 mpu p' !! Z.to_nat j = Some (region_descriptor def p j).2)
            ∧ (∀ j, OS_TASK_MPU_REGIONS <= j →
                 mpu p' !! Z.to_nat j = mpu p !! Z.to_nat j)) as Hgood.
  { intros Hacc.
    destruct (os_process_create_regions_ok def (Z.to_nat OS_TASK_MPU_REGIONS) 0
                (set_definition (Some def) p))
      as (p' & Hrun & Hdef' & Hnew & Hold); [lia | cbn; lia | |].
    - intros j Hj. apply Hacc. unfold OS_TASK_MPU_REGIONS in *. lia.
    - exists p'. split; [exact Hrun|]. split; [exact Hdef'|]. split.
      + intros j Hj. apply Hnew. unfold OS_TASK_MPU_REGIONS in *. lia.
      + intros j Hj. apply Hold. unfold OS_TASK_MPU_REGIONS in *. lia. }
  split.
  - split.
    + destruct (os_process_create_regions _ 0 def _) as [rv p'] eqn:Hrun.
      cbn [fst]. intros ->. intros j Hj.
      apply (os_process_create_regions_ok_inv def _ 0 _ p' ltac:(lia) Hrun).
      unfold OS_TASK_MPU_REGIONS in *. lia.
    + intros Hacc. destruct (Hgood Hacc) as (p' & -> & _). reflexivity.
  - intros Hacc. destruct (Hgood Hacc) as (p' & -> & Hrest). by exists p'.
Qed.

(** X19: whatever it is given, [os_process_create] returns one of [E_OK],
    [E_OUT_OF_RANGE] and [E_INVALID], leaves the table its length and
    touches no slot but the one of [process_id]. *)
Theorem os_process_create_elsewhere process_id def os_processes :
  ((os_process_create process_id def os_processes).1 = E_OK
   ∨ (os_process_create process_id def os_processes).1 = E_OUT_OF_RANGE
   ∨ (os_process_create process_id def os_processes).1 = E_INVALID)
  ∧ length (os_process_create process_id def os_processes).2 = length os_processes
  ∧ ∀ i, i ≠ Z.to_nat process_id →
      (os_process_create process_id def os_processes).2 !! i = os_processes !! i.
Proof.
  unfold os_process_create.
  destruct (OS_PROCESSES <=? process_id); [cbn; auto|].
  destruct (definition _); [cbn; auto|].
  destruct (os_process_create_regions _ 0 def _) as [rv p'] eqn:Hrun. cbn [fst snd].
  destruct (os_process_create_regions_post _ _ _ _ _ _ Hrun) as [_ [[-> _] | [-> _]]];
    (split; [auto|]); (split; [apply length_insert|]);
    intros i Hi; by apply list_lookup_insert_ne.
Qed.

(** X20: a process that has been created cannot be created again: after a
    call that returned [E_OK], every further call for the same id returns
    [E_INVALID] and leaves the table alone, whatever definition it brings. *)
Theorem os_process_create_once process_id def def2 os_processes os_processes1 :
  (Z.to_nat process_id < length os_processes)%nat →
  os_process_create process_id def os_processes = (E_OK, os_processes1) →
  os_process_create process_id def2 os_processes1 = (E_INVALID, os_processes1).
Proof.
  intros Hlen. unfold os_process_create at 1.
  destruct (Z.leb_spec OS_PROCESSES process_id); [discriminate|].
  destruct (definition (os_processes !!! Z.to_nat process_id)) eqn:Hdef; [discriminate|].
  destruct (os_process_create_regions _ 0 def _) as [rv p'] eqn:Hrun.
  intros [= -> <-].
  destruct (os_process_create_regions_post _ _ _ _ _ _ Hrun) as [_ [[_ Hdef'] | [[=] _]]].
  unfold os_process_create.
  destruct (Z.leb_spec OS_PROCESSES process_id); [lia|].
  rewrite list_lookup_total_insert_eq by done. by rewrite Hdef'.
Qed.

(** X21: a creation that fails on a region leaves the id free.  After a
    call on an undefined slot that returned [E_INVALID], the slot still has
    no definition and the same number of registers, so a later call with a
    definition whose regions the driver accepts, configured from the
    registers left behind, returns [E_OK]. *)
Theorem os_process_create_again process_id def def2 os_processes os_processes1 p :
  0 <= process_id < OS_PROCESSES →
  os_processes !! Z.to_nat process_id = Some p →
  definition p = None →
  (Z.to_nat OS_TASK_MPU_REGIONS <= length (mpu p))%nat →
  os_process_create process_id def os_processes = (E_INVALID, os_processes1) →
  ∃ p1, os_processes1 !! Z.to_nat process_id = Some p1
    ∧ definition p1 = None ∧ length (mpu p1) = length (mpu p)
    ∧ ((∀ j, 0 <= j < OS_TASK_MPU_REGIONS → (region_descriptor def2 p1 j).1 = E_OK) →
       (os_process_create process_id def2 os_processes1).1 = E_OK).
Proof.
  intros Hid Hp Hdef Hlen. unfold os_process_create at 1.
  destruct (Z.leb_spec OS_PROCESSES process_id); [lia|].
  rewrite (list_lookup_total_correct _ _ _ Hp), Hdef.
  destruct (os_process_create_regions _ 0 def _) as [rv p1] eqn:Hrun.
  intros [= -> <-].
  destruct (os_process_create_regions_post _ _ _ _ _ _ Hrun)
    as [Hlen1 [[[=] _] | [_ Hdef1]]].
  cbn in Hlen1.
  assert (<[Z.to_nat process_id := p1]> os_processes !! Z.to_nat process_id = Some p1)
    as Hp1 by (apply list_lookup_insert_eq; by eapply lookup_lt_Some).
  exists p1. split; [exact Hp1|]. split; [exact Hdef1|]. split; [exact Hlen1|].
  intros Hacc. unfold os_process_create.
  destruct (Z.leb_spec OS_PROCESSES process_id); [lia|].
  rewrite (list_lookup_total_correct _ _ _ Hp1), Hdef1.
  destruct (os_process_create_regions_ok def2 (Z.to_nat OS_TASK_MPU_REGIONS) 0
              (set_definition (Some def2) p1))
    as (p2 & -> & _); [lia | cbn; lia | | reflexivity].
  intros j Hj. apply Hacc. unfold OS_TASK_MPU_REGIONS in *. lia.
Qed.
End process_create_more.

Lemma demo_mpu_accepts (p : OS_process_t) (j : Z) :
  0 <= j < OS_TASK_MPU_REGIONS →
  (region_descriptor (H := demo_mpu) (demo_definition 64) p j).1 = E_OK.
Proof.
  unfold OS_TASK_MPU_REGIONS. intros Hj.
  assert (j = 0 ∨ j = 1 ∨ j = 2 ∨ j = 3 ∨ j = 4) as Hcases by lia.
  destruct Hcases as [-> | [-> | [-> | [-> | ->]]]]; reflexivity.
Qed.

Lemma os_process_create_defines_witness :
  ∃ p', os_process_create (H := demo_mpu) 2 (demo_definition 64) (replicate 8 demo_slot)
        = (E_OK, <[2%nat := p']> (replicate 8 demo_slot))
    ∧ definition p' = Some (demo_definition 64)
    ∧ (∀ j, 0 <= j < OS_TASK_MPU_REGIONS →
         mpu p' !! Z.to_nat j
         = Some (region_descriptor (H := demo_mpu) (demo_definition 64) demo_slot j).2)
    ∧ (∀ j, OS_TASK_MPU_REGIONS <= j → mpu p' !! Z.to_nat j = mpu demo_slot !! Z.to_nat j).
Proof.
  apply (os_process_create_defines (H := demo_mpu) 2 (demo_definition 64)
           (replicate 8 demo_slot) demo_slot).
  - unfold OS_PROCESSES; lia.
  - reflexivity.
  - reflexivity.
  - unfold OS_TASK_MPU_REGIONS; cbn; lia.
  - apply demo_mpu_accepts.
Defined.

Lemma os_process_create_once_witness :
  os_process_create (H := demo_mpu) 2 (demo_definition 8)
    (os_process_create (H := demo_mpu) 2 (demo_definition 64) (replicate 8 demo_slot)).2
  = (E_INVALID,
     (os_process_create (H := demo_mpu) 2 (demo_definition 64) (replicate 8 demo_slot)).2).
Proof.
  apply (os_process_create_once (H := demo_mpu) 2 (demo_definition 64)
           (demo_definition 8) (replicate 8 demo_slot)).
  - cbn; lia.
  - reflexivity.
Defined.

Lemma os_process_create_again_witness :
  ∃ p1, (os_process_create (H := demo_mpu) 3 (demo_definition 8)
           (replicate 8 demo_slot)).2 !! 3%nat = Some p1
    ∧ definition p1 = None ∧ length (mpu p1) = length (mpu demo_slot)
    ∧ (os_process_create (H := demo_mpu) 3 (demo_definition 64)
         (os_process_create (H := demo_mpu) 3 (demo_definition 8)
            (replicate 8 demo_slot)).2).1 = E_OK.
Proof.
  destruct (os_process_create_again (H := demo_mpu) 3 (demo_definition 8)
              (demo_definition 64) (replicate 8 demo_slot)
              (os_process_create (H := demo_mpu) 3 (demo_definition 8)
                 (replicate 8 demo_slot)).2 demo_slot)
    as (p1 & Hp1 & Hdef1 & Hlen1 & Hagain).
  - unfold OS_PROCESSES; lia.
  - reflexivity.
  - reflexivity.
  - unfold OS_TASK_MPU_REGIONS; cbn; lia.
  - reflexivity.
  - exists p1. split; [exact Hp1|]. split; [exact Hdef1|]. split; [exact Hlen1|].
    apply Hagain. apply demo_mpu_accepts.
Defined.

(** * Further properties of the call engine *)

Lemma mpu_load_twice (state state' hw : list MPU_Registers) (count : Z) :
  (Z.to_nat count <= length state')%nat →
  mpu_load state 0 count (mpu_load state' 0 count hw) = mpu_load state 0 count hw.
Proof.
  intros Hlen. unfold mpu_load. change (Z.to_nat 0) with 0%nat.
  rewrite !take_0, !app_nil_l, !Z.add_0_l. f_equal.
  rewrite drop_app_length'; [reflexivity|]. by rewrite length_take_le.
Qed.

Lemma mpu_load_same (state hw : list MPU_Registers) (count : Z) :
  take (Z.to_nat count) hw = take (Z.to_nat count) state →
  mpu_load state 0 count hw = hw.
Proof.
  intros Hsame. unfold mpu_load. change (Z.to_nat 0) with 0%nat.
  rewrite take_0, app_nil_l, Z.add_0_l, <- Hsame. apply take_drop.
Qed.

Section rpc_more.
Context `{Cortex} `{Rpc_externs}.

(** The call that goes through. *)
Lemma os_rpc_call_success (arg0 arg1 arg2 arg3 : Z) (k : kernel) :
  let service := get_exception_argument (ram k) (PSP k) 4 in
  let process_id := get_vtable_process (os_processes k) (load32 (ram k) service) in
  let remote_frame := (push_exception_frame (ram k) (PSP k) 2).1 in
  sanitize_psp (PSP k) = true → process_id ≠ E_VTABLE_UNKNOWN →
  (length (rpc_stack k) < RPC_STACK_DEPTH)%nat →
  sanitize_psp remote_frame = true →
  ∃ k1, os_rpc_call arg0 arg1 arg2 arg3 k = Returned (sint32 arg0) k1
    ∧ rpc_stack k1 = process_id :: rpc_stack k
    ∧ PSP k1 = remote_frame
    ∧ mpu_hw k1
      = mpu_load (mpu (os_processes k !!! Z.to_nat process_id)) 0
          MPU_HOSTED_STATE_SIZE (mpu_hw k)
    ∧ os_processes k1 = os_processes k
    ∧ current_process k1 = current_process k.
Proof.
  intros service process_id remote_frame Hpsp Hknown Hroom Hremote.
  unfold os_rpc_call. rewrite Hpsp. cbn [negb]. fold service. fold process_id.
  destruct (Z.eqb_spec process_id E_VTABLE_UNKNOWN); [contradiction|].
  rewrite rpc_stack_push_room by done.
  subst remote_frame.
  destruct (push_exception_frame (ram k) (PSP k) 2) as [remote_frame mem].
  cbn [fst] in Hremote. rewrite Hremote. cbn [negb].
  eexists. split; [reflexivity|]. cbn. auto.
Qed.

(** X22: a call that passes both stack-pointer checks, through a method
    table the resolver knows, by a thread whose call stack has room,
    returns the caller's first argument, pushes the exporting process on
    the call stack, loads that process's hosted regions as the active
    mapping and moves the stack pointer to the new frame; the process
    table and the thread's owning process are not touched. *)
Theorem os_rpc_call_enters (arg0 arg1 arg2 arg3 : Z) (k : kernel) :
  let service := get_exception_argument (ram k) (PSP k) 4 in
  let process_id := get_vtable_process (os_processes k) (load32 (ram k) service) in
  let remote_frame := (push_exception_frame (ram k) (PSP k) 2).1 in
  sanitize_psp (PSP k) = true → process_id ≠ E_VTABLE_UNKNOWN →
  (length (rpc_stack k) < RPC_STACK_DEPTH)%nat →
  sanitize_psp remote_frame = true →
  ∃ k1, os_rpc_call arg0 arg1 arg2 arg3 k = Returned (sint32 arg0) k1
    ∧ rpc_stack k1 = process_id :: rpc_stack k
    ∧ PSP k1 = remote_frame
    ∧ mpu_hw k1
      = mpu_load (mpu (os_processes k !!! Z.to_nat process_id)) 0
          MPU_HOSTED_STATE_SIZE (mpu_hw k)
    ∧ os_processes k1 = os_processes k
    ∧ current_process k1 = current_process k
    ∧ ((Z.to_nat MPU_HOSTED_STATE_SIZE
        <= length (mpu (os_processes k !!! Z.to_nat process_id)))%nat →
       take (Z.to_nat MPU_HOSTED_STATE_SIZE) (mpu_hw k1)
       = take (Z.to_nat MPU_HOSTED_STATE_SIZE)
           (mpu (os_processes k !!! Z.to_nat process_id))).
Proof.
  intros service process_id remote_frame Hpsp Hknown Hroom Hremote.
  destruct (os_rpc_call_success arg0 arg1 arg2 arg3 k Hpsp Hknown Hroom Hremote)
    as (k1 & Hcall & Hstack & Hpsp1 & Hhw & Htable & Hhome).
  exists k1. repeat split; auto.
  intros Hlen. fold service in Hhw. fold process_id in Hhw.
  rewrite Hhw. by apply mpu_load_hosted.
Qed.

(** X23: a call that goes through, followed by the return from it, leaves
    the thread's call stack as it was before the call and loads the hosted
    regions of the process that made the call: the top of that stack, or
    the thread's owning process when the stack is empty.  If those regions
    were the active ones before the call, the active mapping is restored
    exactly. *)
Theorem os_rpc_call_return (arg0 arg1 arg2 arg3 res0 res1 res2 res3 : Z) (k : kernel) :
  let service := get_exception_argument (ram k) (PSP k) 4 in
  let process_id := get_vtable_process (os_processes k) (load32 (ram k) service) in
  let remote_frame := (push_exception_frame (ram k) (PSP k) 2).1 in
  let caller := resumed_process (rpc_stack k) k in
  sanitize_psp (PSP k) = true → process_id ≠ E_VTABLE_UNKNOWN →
  (length (rpc_stack k) < RPC_STACK_DEPTH)%nat →
  sanitize_psp remote_frame = true →
  caller ≠ E_VTABLE_UNKNOWN →
  ∃ k1 k2, os_rpc_call arg0 arg1 arg2 arg3 k = Returned (sint32 arg0) k1
    ∧ os_rpc_return res0 res1 res2 res3 k1 = Returned (sint32 res0) k2
    ∧ rpc_stack k2 = rpc_stack k
    ∧ os_processes k2 = os_processes k
    ∧ current_process k2 = current_process k
    ∧ mpu_hw k2
      = mpu_load (mpu (os_processes k !!! Z.to_nat caller)) 0
          MPU_HOSTED_STATE_SIZE (mpu_hw k1)
    ∧ ((Z.to_nat MPU_HOSTED_STATE_SIZE
        <= length (mpu (os_processes k !!! Z.to_nat process_id)))%nat →
       take (Z.to_nat MPU_HOSTED_STATE_SIZE) (mpu_hw k)
       = take (Z.to_nat MPU_HOSTED_STATE_SIZE) (mpu (os_processes k !!! Z.to_nat caller)) →
       mpu_hw k2 = mpu_hw k).
Proof.
  intros service process_id remote_frame caller Hpsp Hknown Hroom Hremote Hcaller.
  destruct (os_rpc_call_success arg0 arg1 arg2 arg3 k Hpsp Hknown Hroom Hremote)
    as (k1 & Hcall & Hstack & Hpsp1 & Hhw & Htable & Hhome).
  fold service in Hstack, Hhw. fold process_id in Hstack, Hhw.
  fold remote_frame in Hpsp1.
  exists k1. unfold os_rpc_return. rewrite Hpsp1, Hremote. cbn [negb].
  unfold rpc_stack_pop. rewrite Hstack. cbn [tail].
  assert ((if 0 <? Z.of_nat (length (rpc_stack k)) then rpc_stack_top (rpc_stack k)
           else os_get_current_process k1) = caller) as ->.
  { subst caller. unfold os_get_current_process. rewrite Hhome.
    by destruct (rpc_stack k). }
  destruct (Z.eqb_spec caller E_VTABLE_UNKNOWN); [contradiction|].
  eexists. split; [exact Hcall|]. split; [reflexivity|]. cbn.
  rewrite Htable. repeat split; auto.
  intros Hlen Hsame. rewrite Hhw, mpu_load_twice by done. by apply mpu_load_same.
Qed.

(** X24: neither [os_rpc_call] nor [os_rpc_return], whatever they return,
    changes the process table or the thread's owning process, and neither
    takes a call stack that is within the configured depth beyond it. *)
Theorem os_rpc_keeps (arg0 arg1 arg2 arg3 rv : Z) (k k' : kernel) :
  os_rpc_call arg0 arg1 arg2 arg3 k = Returned rv k'
  ∨ os_rpc_return arg0 arg1 arg2 arg3 k = Returned rv k' →
  os_processes k' = os_processes k
  ∧ current_process k' = current_process k
  ∧ ((length (rpc_stack k) <= RPC_STACK_DEPTH)%nat →
     (length (rpc_stack k') <= RPC_STACK_DEPTH)%nat).
Proof.
  intros [Hcall | Hret].
  - unfold os_rpc_call in Hcall.
    destruct (negb (sanitize_psp (PSP k))); [discriminate|].
    destruct (_ =? E_VTABLE_UNKNOWN); [by injection Hcall as <- <-|].
    unfold rpc_stack_push in Hcall.
    destruct (Nat.ltb_spec (length (rpc_stack k)) RPC_STACK_DEPTH) as [Hroom | _];
      [|by injection Hcall as <- <-].
    destruct (push_exception_frame _ _ _) as [remote_frame mem].
    destruct (negb (sanitize_psp remote_frame)); [discriminate|].
    injection Hcall as <- <-. cbn. repeat split; auto; try (intros _; lia).
  - unfold os_rpc_return in Hret.
    destruct (negb (sanitize_psp (PSP k))); [discriminate|].
    unfold rpc_stack_pop in Hret.
    destruct (_ =? E_VTABLE_UNKNOWN); [discriminate|].
    injection Hret as <- <-. cbn. repeat split; auto.
    destruct (rpc_stack k); cbn; lia.
Qed.
End rpc_more.

Lemma os_rpc_call_enters_witness :
  ∃ k1, os_rpc_call (H := demo_cortex) (H0 := demo_rpc) 1 2 3 4 (demo_kernel 0x08001100 [])
        = Returned 1 k1
    ∧ rpc_stack k1 = [1]
    ∧ PSP k1 = 0x20000800 - 40
    ∧ os_processes k1 = os_processes (demo_kernel 0x08001100 [])
    ∧ current_process k1 = 0
    ∧ take 4 (mpu_hw k1) = take 4 (mpu demo_slot).
Proof.
  destruct (os_rpc_call_enters (H := demo_cortex) (H0 := demo_rpc) 1 2 3 4
              (demo_kernel 0x08001100 []))
    as (k1 & Hcall & Hstack & Hpsp & _ & Htable & Hhome & Hhosted).
  - reflexivity.
  - vm_compute; congruence.
  - cbn; lia.
  - reflexivity.
  - exists k1. split; [exact Hcall|]. split; [exact Hstack|]. split; [exact Hpsp|].
    split; [exact Htable|]. split; [exact Hhome|].
    apply Hhosted. vm_compute; lia.
Defined.

Lemma os_rpc_call_return_witness :
  ∃ k1 k2,
    os_rpc_call (H := demo_cortex) (H0 := demo_rpc) 1 2 3 4 (demo_kernel 0x08001100 [])
    = Returned 1 k1
    ∧ os_rpc_return (H := demo_cortex) 9 0 0 0 k1 = Returned 9 k2
    ∧ rpc_stack k2 = []
    ∧ mpu_hw k2 = mpu_hw (demo_kernel 0x08001100 []).
Proof.
  destruct (os_rpc_call_return (H := demo_cortex) (H0 := demo_rpc) 1 2 3 4 9 0 0 0
              (demo_kernel 0x08001100 []))
    as (k1 & k2 & Hcall & Hret & Hstack & _ & _ & _ & Hsame).
  - reflexivity.
  - vm_compute; congruence.
  - cbn; lia.
  - reflexivity.
  - vm_compute; congruence.
  - exists k1, k2. split; [exact Hcall|]. split; [exact Hret|]. split; [exact Hstack|].
    apply Hsame; [vm_compute; lia | reflexivity].
Defined.

Lemma os_rpc_keeps_witness :
  ∃ k', os_rpc_return (H := demo_cortex) 7 0 0 0 (demo_kernel 0 [1; 2]) = Returned 7 k'
    ∧ os_processes k' = os_processes (demo_kernel 0 [1; 2])
    ∧ current_process k' = current_process (demo_kernel 0 [1; 2])
    ∧ ((length (rpc_stack (demo_kernel 0 [1; 2]%Z)) <= 2)%nat →
       (length (rpc_stack k') <= 2)%nat).
Proof.
  eexists. split; [reflexivity|].
  eapply (os_rpc_keeps (H := demo_cortex) (H0 := demo_rpc) 7 0 0 0 7
            (demo_kernel 0 [1; 2])).
  right. reflexivity.
Defined.
